(** * toJson.py: parser-table dump to JSON table

    A shallow embedding of [src/toJson.py] and the properties of its
    conversion routine [convert].

    Text.  A Python [str] is modelled as a list of characters, a character as
    an [ascii] standing for the code point of the same number, so the model
    covers texts whose code points are below 256.  On that range the classes
    used by the program are: [\d] and [int] digits are ['0'..'9']; [\s] and
    [str.strip] blanks are U+0009..U+000D, U+001C..U+0020, U+0085 and U+00A0;
    [str.splitlines] boundaries are U+000A..U+000D, U+001C..U+001E and U+0085.

    Integers.  A Python [int] is a [Z].  [int] of a string and [str] of an
    integer raise [ValueError] when the number has more than 4300 digits
    (the interpreter's default limit on decimal conversions); the model has
    that limit.

    Dictionaries.  A Python [dict] keeps its keys in insertion order and
    [json.dumps] emits them in that order, so [data] is an association list
    with [setdefault] appending a fresh key at the end.

    Errors.  [None] stands for a raised exception ([KeyError] of a subscript,
    [ValueError] of [int] and of [str]). *)

From Stdlib Require Import ZArith Ascii String DecimalString DecimalZ.
From stdpp Require Import base option list sorting strings.

Open Scope Z_scope.

(** ** Characters and character classes *)

Definition str := list ascii.

(** A string literal as a [str]. *)
Definition py (s : string) : str := list_ascii_of_string s.

Definition code (c : ascii) : N := N_of_ascii c.

(** [\d] of a [str] pattern, restricted to code points below 256. *)
Definition is_digit (c : ascii) : bool :=
  ((48 <=? code c) && (code c <=? 57))%N.

(** [\s] of a [str] pattern and [str.isspace], restricted to code points
    below 256. *)
Definition is_space (c : ascii) : bool :=
  (((9 <=? code c) && (code c <=? 13))
   || ((28 <=? code c) && (code c <=? 32))
   || (code c =? 133) || (code c =? 160))%N.

(** Line boundaries of [str.splitlines]. *)
Definition is_linebreak (c : ascii) : bool :=
  (((10 <=? code c) && (code c <=? 13))
   || ((28 <=? code c) && (code c <=? 30))
   || (code c =? 133))%N.

(** [.] without [re.DOTALL]: anything but a line feed. *)
Definition is_dot (c : ascii) : bool := negb (code c =? 10)%N.

Definition LF : ascii := ascii_of_N 10.
Definition CR : ascii := ascii_of_N 13.

(** ** String methods *)

(** [s.splitlines()].  [cur] is the line being read, reversed; [after_cr]
    says that the previous character was a carriage return, so that a line
    feed that follows belongs to the same boundary. *)
Fixpoint splitlines_from (cur : str) (after_cr : bool) (s : str) : list str :=
  match s with
  | [] => match cur with [] => [] | _ => [rev cur] end
  | c :: s' =>
      if after_cr && bool_decide (c = LF) then splitlines_from cur false s'
      else if is_linebreak c
           then rev cur :: splitlines_from [] (bool_decide (c = CR)) s'
           else splitlines_from (c :: cur) false s'
  end.

Definition splitlines (s : str) : list str := splitlines_from [] false s.

(** [s.split(sep)] for a separator of one character. *)
Fixpoint split (sep : ascii) (s : str) : list str :=
  match s with
  | [] => [[]]
  | c :: s' =>
      if bool_decide (c = sep) then [] :: split sep s'
      else match split sep s' with
           | p :: ps => (c :: p) :: ps
           | [] => [[c]]
           end
  end.

Fixpoint lstrip (s : str) : str :=
  match s with
  | c :: s' => if is_space c then lstrip s' else s
  | [] => []
  end.

Definition rstrip (s : str) : str := rev (lstrip (rev s)).

(** [s.strip()] *)
Definition strip (s : str) : str := rstrip (lstrip s).

(** [sep.join(parts)] *)
Fixpoint join (sep : str) (parts : list str) : str :=
  match parts with
  | [] => []
  | [p] => p
  | p :: ps => p ++ sep ++ join sep ps
  end.

(** ** Integers and their decimal form *)

(** The most digits that [int] reads and that [str] writes: the default of
    [sys.int_info.default_max_str_digits]. *)
Definition MAX_STR_DIGITS : Z := 4300.

(** The decimal form of an integer. *)
Definition decimal (n : Z) : str :=
  py (NilZero.string_of_int (Z.to_int n)).

(** [str(n)]: the decimal form of [n], or [None] for the [ValueError] of a
    number of more digits than the limit (the sign does not count). *)
Definition str_of_int (n : Z) : option str :=
  if MAX_STR_DIGITS <? Z.of_nat (length (decimal (Z.abs n))) then None
  else Some (decimal n).

Definition digit_value (c : ascii) : option Z :=
  if is_digit c then Some (Z.of_N (code c) - 48) else None.

Fixpoint int_from (acc : Z) (s : str) : option Z :=
  match s with
  | [] => Some acc
  | c :: s' => d ← digit_value c; int_from (10 * acc + d) s'
  end.

(** [int(s)] on the strings the patterns capture: a non-empty run of decimal
    digits.  [None] is the [ValueError] of a run of more digits than the
    limit, leading zeros counted.  Anything that is not a run of digits is
    outside the model and answers [None] too. *)
Definition int_of_str (s : str) : option Z :=
  match s with
  | [] => None
  | _ => if MAX_STR_DIGITS <? Z.of_nat (length s) then None else int_from 0 s
  end.

(** ** Regular expressions

    The two patterns of the program are sequences of anchors, literal
    characters, greedy repetitions of one character class and capture marks.
    [exec] is the backtracking search of [re.match]: it starts at the first
    character, a greedy repetition first tries to take one more character and
    gives it back only when the rest of the pattern fails, and the first
    success is the answer.  The match need not reach the end of the string. *)

Inductive node : Type :=
| Bol                            (* ^ *)
| Eol                            (* $ *)
| Lit (c : ascii)                (* a literal character *)
| Star (p : ascii -> bool)       (* p*, greedy *)
| Plus (p : ascii -> bool)       (* p+, greedy *)
| Open                           (* start of a capture group *)
| Close.                         (* end of a capture group *)

Definition regex := list node.

(** The state of a match attempt: the number of characters consumed, the
    text of the group being captured (reversed) and the groups already
    closed (latest first). *)
Record mstate : Type := MState {
  pos : nat;
  opened : option str;
  groups : list str
}.

Definition start : mstate := MState 0 None [].

Definition eat (c : ascii) (st : mstate) : mstate :=
  MState (S (pos st)) (cons c <$> opened st) (groups st).

Definition open_group (st : mstate) : mstate :=
  MState (pos st) (Some []) (groups st).

Definition close_group (st : mstate) : mstate :=
  MState (pos st) None (rev (default [] (opened st)) :: groups st).

Fixpoint greedy (p : ascii -> bool) (k : mstate -> str -> option (list str))
    (st : mstate) (s : str) : option (list str) :=
  match s with
  | c :: s' =>
      if p c then
        match greedy p k (eat c st) s' with
        | Some g => Some g
        | None => k st s
        end
      else k st s
  | [] => k st s
  end.

Fixpoint exec (r : regex) (st : mstate) (s : str) : option (list str) :=
  match r with
  | [] => Some (rev (groups st))
  | Bol :: r' => if Nat.eqb (pos st) 0 then exec r' st s else None
  | Eol :: r' =>
      match s with
      | [] => exec r' st s
      | [c] => if bool_decide (c = LF) then exec r' st s else None
      | _ => None
      end
  | Lit c :: r' =>
      match s with
      | c' :: s' => if bool_decide (c' = c) then exec r' (eat c' st) s' else None
      | [] => None
      end
  | Star p :: r' => greedy p (exec r') st s
  | Plus p :: r' =>
      match s with
      | c :: s' => if p c then greedy p (exec r') (eat c st) s' else None
      | [] => None
      end
  | Open :: r' => exec r' (open_group st) s
  | Close :: r' => exec r' (close_group st) s
  end.

(** [pattern.match(s)]: the captured groups, in order, or [None]. *)
Definition re_match (r : regex) (s : str) : option (list str) := exec r start s.

Definition lits (s : string) : regex := Lit <$> py s.

(** STATE_RE, written with blanks between its parts:
    ^ \s* State \s+ ( \d+ ) \s* $ *)
Definition STATE_RE : regex :=
  [Bol; Star is_space] ++ lits "State"
  ++ [Plus is_space; Open; Plus is_digit; Close; Star is_space; Eol].

(** ITEM_RE, written with blanks between its parts:
    ^ \s* \[ ( .* ) \] \s* : \s* ( \d+ ) \s* $ *)
Definition ITEM_RE : regex :=
  [Bol; Star is_space; Lit "["; Open; Star is_dot; Close; Lit "]";
   Star is_space; Lit ":"; Star is_space; Open; Plus is_digit; Close;
   Star is_space; Eol].

(** [m.group(i)] for [i >= 1]. *)
Definition group (m : list str) (i : nat) : option str :=
  match i with
  | O => None
  | S j => m !! j
  end.

(** ** The table *)

(** One record of a state: the dictionary with the members [key] and
    [value]. *)
Record item : Type := Item { key : str; value : Z }.

(** [data]: state name to the list of its records, in insertion order. *)
Definition dict := list (str * list item).

Definition keys (d : dict) : list str := d.*1.

Fixpoint getitem (k : str) (d : dict) : option (list item) :=
  match d with
  | [] => None
  | (k', v) :: d' => if decide (k' = k) then Some v else getitem k d'
  end.

(** [d.setdefault(k, v)]: a key already present keeps its value and its
    place; a new key goes to the end. *)
Definition setdefault (k : str) (v : list item) (d : dict) : dict :=
  match getitem k d with
  | Some _ => d
  | None => d ++ [(k, v)]
  end.

(** [d[k].append(x)]: the list stored under [k] grows in place; [None] is
    the [KeyError] of the subscript. *)
Fixpoint append_to (k : str) (x : item) (d : dict) : option dict :=
  match d with
  | [] => None
  | (k', v) :: d' =>
      if decide (k' = k) then Some ((k', v ++ [x]) :: d')
      else cons (k', v) <$> append_to k x d'
  end.

(** ** [normalize_key] *)

Definition is_tag (p : str) : Prop := p ∈ [py "T"; py "NT"].

(** The value of [parts] at the [return] of [normalize_key]. *)
Definition key_parts (inner : str) : list str :=
  let parts := strip <$> split "," inner in
  filter (λ p, ¬ is_tag p ∧ p ≠ []) parts.

Definition normalize_key (inner : str) : str :=
  py "[" ++ join (py ", ") (key_parts inner) ++ py "]".

(** ** [convert] *)

(** The variables of the loop. *)
Record scan : Type := Scan {
  data : dict;
  current_state : option Z;
  max_state_seen : Z
}.

Definition scan_init : scan := Scan [] None (-1).

(** One turn of the loop over the lines. *)
Definition step (st : scan) (line : str) : option scan :=
  match re_match STATE_RE line with
  | Some m_state =>
      g ← group m_state 1;
      cs ← int_of_str g;
      k ← str_of_int cs;
      Some (Scan (setdefault k [] (data st))
                 (Some cs)
                 (Z.max (max_state_seen st) cs))
  | None =>
      match re_match ITEM_RE line, current_state st with
      | Some m_item, Some cs =>
          key_inner ← group m_item 1;
          g ← group m_item 2;
          v ← int_of_str g;
          k ← str_of_int cs;
          d ← append_to k (Item (normalize_key key_inner) v) (data st);
          Some (Scan d (Some cs) (max_state_seen st))
      | _, _ => Some st
      end
  end.

Fixpoint scan_lines (st : scan) (lines : list str) : option scan :=
  match lines with
  | [] => Some st
  | line :: rest => st' ← step st line; scan_lines st' rest
  end.

(** [range(n)] *)
Definition range (n : Z) : list Z := seqZ 0 n.

(** The loop of the gap filling over the numbers [ss]. *)
Fixpoint fill (d : dict) (ss : list Z) : option dict :=
  match ss with
  | [] => Some d
  | s :: rest => k ← str_of_int s; fill (setdefault k [] d) rest
  end.

Definition fill_states (st : scan) : option dict :=
  fill (data st) (range (max_state_seen st + 1)).

(** The body of [convert] once the lines are read: the loop over the lines,
    the gap filling, the result. *)
Definition convert_lines (lines : list str) (include_empty_states : bool)
    : option dict :=
  st ← scan_lines scan_init lines;
  if include_empty_states then fill_states st else Some (data st).

(** [convert]: [txt] is the text that [read_text] returns for [txt_path]. *)
Definition convert (txt : str) (include_empty_states : bool) : option dict :=
  convert_lines (splitlines txt) include_empty_states.

(** ** What a line is to the loop *)

(** A header line with its state, an item line with its record, or another
    line.  A line whose number [int] refuses is among the other lines: it
    has no state and no record, and the loop raises when it reads the
    number. *)
Inductive line_kind : Type :=
| Header (n : Z)
| Entry (it : item)
| Other.

Definition classify (line : str) : line_kind :=
  match re_match STATE_RE line with
  | Some m =>
      match group m 1 ≫= int_of_str with
      | Some n => Header n
      | None => Other
      end
  | None =>
      match re_match ITEM_RE line with
      | Some m =>
          match group m 1, group m 2 ≫= int_of_str with
          | Some inner, Some v => Entry (Item (normalize_key inner) v)
          | _, _ => Other
          end
      | None => Other
      end
  end.

Definition header_of (line : str) : option Z :=
  match classify line with
  | Header n => Some n
  | _ => None
  end.

Definition entry_of (line : str) : option item :=
  match classify line with
  | Entry it => Some it
  | _ => None
  end.

(** The state numbers of the header lines, in the order of the lines. *)
Definition headers (lines : list str) : list Z := omap header_of lines.

(** The records of the item lines, in the order of the lines. *)
Definition entries (lines : list str) : list item := omap entry_of lines.

(** The state a line falls under when the lines before it left [cur]. *)
Definition next_state (cur : option Z) (line : str) : option Z :=
  match header_of line with
  | Some n => Some n
  | None => cur
  end.

(** The records of the item lines that fall under state [n], in the order
    of the lines, when the lines before left [cur] as the current state. *)
Fixpoint entries_under (n : Z) (cur : option Z) (lines : list str) : list item :=
  match lines with
  | [] => []
  | line :: rest =>
      match entry_of line with
      | Some it => if decide (cur = Some n) then it :: entries_under n cur rest
                   else entries_under n cur rest
      | None => entries_under n (next_state cur line) rest
      end
  end.

(** A list without its repetitions, every element at its first place. *)
Definition first_seen_add {A} `{EqDecision A} (acc : list A) (x : A) : list A :=
  if decide (x ∈ acc) then acc else acc ++ [x].

Definition first_seen {A} `{EqDecision A} (l : list A) : list A :=
  foldl first_seen_add [] l.

(** The largest element, [-1] for no element. *)
Definition max_of (l : list Z) : Z := foldl Z.max (-1) l.

(** [ascending l]: the numbers of [l] increase strictly. *)
Fixpoint ascending (l : list Z) : Prop :=
  match l with
  | x :: (y :: _) as l' => x < y ∧ ascending l'
  | _ => True
  end.

(** The state numbers named by the keys of a table. *)
Definition names_ascending (d : dict) : Prop :=
  ∃ ns, keys d = decimal <$> ns ∧ ascending ns.

(** ** A declarative reading of the patterns *)

Definition eat_all (w : str) (st : mstate) : mstate := foldl (flip eat) st w.

(** [derive r st s g]: the pattern [r] can match a prefix of [s] from state
    [st], and that way of matching captures the groups [g]. *)
Inductive derive : regex → mstate → str → list str → Prop :=
| derive_nil st s :
    derive [] st s (rev (groups st))
| derive_bol r st s g :
    pos st = 0%nat → derive r st s g → derive (Bol :: r) st s g
| derive_eol r st s g :
    s = [] ∨ s = [LF] → derive r st s g → derive (Eol :: r) st s g
| derive_lit c r st s g :
    derive r (eat c st) s g → derive (Lit c :: r) st (c :: s) g
| derive_star p r st w s g :
    Forall (λ c, p c = true) w → derive r (eat_all w st) s g →
    derive (Star p :: r) st (w ++ s) g
| derive_plus p r st w s g :
    w ≠ [] → Forall (λ c, p c = true) w → derive r (eat_all w st) s g →
    derive (Plus p :: r) st (w ++ s) g
| derive_open r st s g :
    derive r (open_group st) s g → derive (Open :: r) st s g
| derive_close r st s g :
    derive r (close_group st) s g → derive (Close :: r) st s g.

(** ** Shapes of the lines the patterns accept *)

Definition blank (w : str) : Prop := Forall (λ c, is_space c = true) w.

Definition digits (w : str) : Prop := w ≠ [] ∧ Forall (λ c, is_digit c = true) w.

(** [header_shape line ds]: blanks, the word State, at least one blank, the
    digits [ds], blanks. *)
Definition header_shape (line ds : str) : Prop :=
  ∃ w1 w2 w3,
    line = w1 ++ py "State" ++ w2 ++ ds ++ w3
    ∧ blank w1 ∧ blank w2 ∧ w2 ≠ [] ∧ digits ds ∧ blank w3.

(** [item_shape line inner ds]: blanks, [inner] between square brackets,
    blanks, a colon, blanks, the digits [ds], blanks; [inner] is any text
    without a line feed, closing brackets included. *)
Definition item_shape (line inner ds : str) : Prop :=
  ∃ w1 w2 w3 w4,
    line = w1 ++ py "[" ++ inner ++ py "]" ++ w2 ++ py ":" ++ w3 ++ ds ++ w4
    ∧ blank w1 ∧ (LF ∉ inner) ∧ blank w2 ∧ blank w3 ∧ digits ds ∧ blank w4.

(** [stops p s]: a run of [p] cannot go on into [s]. *)
Definition stops (p : ascii → bool) (s : str) : Prop :=
  match s with
  | [] => True
  | c :: _ => p c = false
  end.


(** ** The loop without its errors

    [apply_kind] is what [step] does on the kind of the line when it raises
    nothing: the name of a state is its decimal form, and [add_entry] is the
    subscript that cannot fail (it leaves a table without the key as it
    is). *)

Fixpoint add_entry (k : str) (x : item) (d : dict) : dict :=
  match d with
  | [] => []
  | (k', v) :: d' =>
      if decide (k' = k) then (k', v ++ [x]) :: d'
      else (k', v) :: add_entry k x d'
  end.

Definition apply_kind (st : scan) (k : line_kind) : scan :=
  match k with
  | Header n =>
      Scan (setdefault (decimal n) [] (data st)) (Some n)
           (Z.max (max_state_seen st) n)
  | Entry it =>
      match current_state st with
      | Some cs =>
          Scan (add_entry (decimal cs) it (data st)) (Some cs)
               (max_state_seen st)
      | None => st
      end
  | Other => st
  end.

Definition run (st : scan) (lines : list str) : scan :=
  foldl (λ st line, apply_kind st (classify line)) st lines.

(** The gap filling with every name written. *)
Definition filled (st : scan) : dict :=
  foldl (λ d s, setdefault (decimal s) [] d) (data st)
        (range (max_state_seen st + 1)).

(** What [convert] returns for the lines, when it returns. *)
Definition table (lines : list str) (include_empty_states : bool) : dict :=
  if include_empty_states then filled (run scan_init lines)
  else data (run scan_init lines).

(** The loop never meets a missing key when the current state has one. *)
Definition ready (st : scan) : Prop :=
  ∀ cs, current_state st = Some cs → is_Some (getitem (decimal cs) (data st)).

(** [str] writes the numbers that the loop holds and those that the gap
    filling goes through. *)
Definition writable (st : scan) : Prop :=
  (∀ cs, current_state st = Some cs → is_Some (str_of_int cs))
  ∧ (∀ s, 0 ≤ s ≤ max_state_seen st → is_Some (str_of_int s)).


(** Every value recorded in the table has the property [P]. *)
Definition values_all (P : Z → Prop) (d : dict) : Prop :=
  ∀ k its it, (k, its) ∈ d → it ∈ its → P (value it).

(** Every value recorded in the table is a natural number. *)
Definition values_nonneg (d : dict) : Prop :=
  ∀ k its it, (k, its) ∈ d → it ∈ its → 0 ≤ value it.

(** ** A text to try the program on

    The text of the scenarios of the specification: a header of state 0, one
    item line, a header of state 2. *)
Definition scenario : str :=
  py "State 0" ++ [LF] ++ py "[T, ID, T, =, NT, Expr]: 5" ++ [LF]
  ++ py "State 2" ++ [LF].

(** The tables of the scenario, with and without gap filling. *)
Definition scenario_filled : dict :=
  [(py "0", [Item (py "[ID, =, Expr]") 5]); (py "2", []); (py "1", [])].

Definition scenario_unfilled : dict :=
  [(py "0", [Item (py "[ID, =, Expr]") 5]); (py "2", [])].

(** ** More readings of the lines *)

(** The lines from the first header line on. *)
Fixpoint from_first_header (lines : list str) : list str :=
  match lines with
  | [] => []
  | line :: rest =>
      match header_of line with
      | Some _ => lines
      | None => from_first_header rest
      end
  end.

(** All the records of a table, state after state. *)
Definition all_records (d : dict) : list item := concat (d.*2).

(** The empty entry that the gap filling makes for state [n]. *)
Definition empty_state (n : Z) : str * list item := (decimal n, []).

(** The lines of a text written with one terminator after every line. *)
Definition terminated (eol : str) (lines : list str) : str :=
  concat ((λ line, line ++ eol) <$> lines).

(** No character of the line is a line boundary. *)
Definition unbroken (line : str) : Prop :=
  Forall (λ c, is_linebreak c = false) line.

(** ** The JSON text

    [json.dumps(obj, ensure_ascii=False, indent=2)] on the value that
    [convert] returns: a dictionary from names to lists of dictionaries with
    the members key and value.  With an indent the encoder separates items
    with a comma and a new line, and a key from its value with a colon and a
    blank; an empty dictionary and an empty list are written without a new
    line. *)

Definition QUOTE : ascii := ascii_of_N 34.
Definition BACKSLASH : ascii := ascii_of_N 92.

(** A hexadecimal digit in lower case, as the format [04x] writes it. *)
Definition hex_digit (n : N) : ascii :=
  if (n <? 10)%N then ascii_of_N (48 + n) else ascii_of_N (87 + n).

(** The replacement of one character in a string: the table [ESCAPE_DCT]
    of the encoder, used for the characters below U+0020, the quote and the
    backslash.  Without [ensure_ascii] every other character is kept. *)
Definition escape_char (c : ascii) : str :=
  if (code c =? 92)%N then [BACKSLASH; BACKSLASH]
  else if (code c =? 34)%N then [BACKSLASH; QUOTE]
  else if (code c =? 8)%N then [BACKSLASH; "b"%char]
  else if (code c =? 12)%N then [BACKSLASH; "f"%char]
  else if (code c =? 10)%N then [BACKSLASH; "n"%char]
  else if (code c =? 13)%N then [BACKSLASH; "r"%char]
  else if (code c =? 9)%N then [BACKSLASH; "t"%char]
  else if (code c <? 32)%N then
    [BACKSLASH; "u"%char; "0"%char; "0"%char;
     hex_digit (code c / 16); hex_digit (code c mod 16)]
  else [c].

(** [encode_basestring] *)
Definition encode_basestring (s : str) : str :=
  [QUOTE] ++ concat (escape_char <$> s) ++ [QUOTE].

(** A new line and the indent of a nesting level. *)
Definition newline_indent (level : nat) : str :=
  LF :: concat (replicate level (py "  ")).

(** One record, an element of a list at nesting level 2. *)
Definition dumps_item (it : item) : str :=
  py "{" ++ newline_indent 3
  ++ encode_basestring (py "key") ++ py ": " ++ encode_basestring (key it)
  ++ py "," ++ newline_indent 3
  ++ encode_basestring (py "value") ++ py ": " ++ decimal (value it)
  ++ newline_indent 2 ++ py "}".

(** The list of a state, a value at nesting level 1. *)
Definition dumps_list (l : list item) : str :=
  match l with
  | [] => py "[]"
  | _ => py "[" ++ newline_indent 2
         ++ join (py "," ++ newline_indent 2) (dumps_item <$> l)
         ++ newline_indent 1 ++ py "]"
  end.

Definition dumps_member (m : str * list item) : str :=
  encode_basestring m.1 ++ py ": " ++ dumps_list m.2.

(** The whole table: the text that the encoder writes when it can write
    every value. *)
Definition dumps (d : dict) : str :=
  match d with
  | [] => py "{}"
  | _ => py "{" ++ newline_indent 1
         ++ join (py "," ++ newline_indent 1) (dumps_member <$> d)
         ++ newline_indent 0 ++ py "}"
  end.

(** The encoder writes an integer as [str] does, and so raises on a value of
    more digits than the limit. *)
Definition encodable (d : dict) : Prop :=
  Forall (λ m, Forall (λ it, is_Some (str_of_int (value it))) m.2) d.

(** [json.dumps(obj, ensure_ascii=False, indent=2)] *)
Definition json_dumps (d : dict) : option str :=
  if decide (encodable d) then Some (dumps d) else None.

(** The text that the program writes to its output file for the input text
    [txt]; [no_empty] is the option of the command line. *)
Definition output_text (txt : str) (no_empty : bool) : option str :=
  obj ← convert txt (negb no_empty);
  json_dumps obj.

(** The value of a hexadecimal digit in lower case. *)
Definition hex_value (c : ascii) : option N :=
  if is_digit c then Some (code c - 48)%N
  else if ((97 <=? code c) && (code c <=? 102))%N then Some (code c - 87)%N
  else None.



(** Reading back one character of a string: the inverse of [escape_char],
    used to tell the strings of the text apart. *)
Definition unescape_char (s : str) : option (ascii * str) :=
  match s with
  | [] => None
  | c :: r =>
      if bool_decide (c = QUOTE) then None
      else if bool_decide (c = BACKSLASH) then
        match r with
        | [] => None
        | e :: r' =>
            if bool_decide (e = BACKSLASH) then Some (BACKSLASH, r')
            else if bool_decide (e = QUOTE) then Some (QUOTE, r')
            else if bool_decide (e = "b"%char) then Some (ascii_of_N 8, r')
            else if bool_decide (e = "f"%char) then Some (ascii_of_N 12, r')
            else if bool_decide (e = "n"%char) then Some (ascii_of_N 10, r')
            else if bool_decide (e = "r"%char) then Some (ascii_of_N 13, r')
            else if bool_decide (e = "t"%char) then Some (ascii_of_N 9, r')
            else if bool_decide (e = "u"%char) then
              match r' with
              | z1 :: z2 :: h1 :: h2 :: r'' =>
                  a ← hex_value h1; b ← hex_value h2;
                  Some (ascii_of_N (16 * a + b), r'')
              | _ => None
              end
            else None
        end
      else Some (c, r)
  end.

(** A character of a number as [str] writes it. *)
Definition is_number_char (c : ascii) : bool :=
  is_digit c || bool_decide (c = "-"%char).

(** * Properties *)

(** ** The methods on examples *)

Example splitlines_ex :
  splitlines (py "a
b") = [py "a"; py "b"]
  /\ splitlines [] = []
  /\ splitlines [LF] = [[]]
  /\ splitlines (py "a" ++ [CR; LF; LF] ++ py "b" ++ [CR]) = [py "a"; []; py "b"].
Proof. repeat split; reflexivity. Qed.

Example split_ex :
  split "," (py "T, ID,,x") = [py "T"; py " ID"; []; py "x"]
  /\ split "," [] = [[]].
Proof. split; reflexivity. Qed.

Example strip_ex : strip (py "  a b  ") = py "a b" /\ strip (py "   ") = [].
Proof. split; reflexivity. Qed.

Example str_int_ex :
  decimal 0 = py "0" /\ decimal 120 = py "120"
  /\ int_of_str (py "0012") = Some 12 /\ int_of_str (py "-5") = None.
Proof. repeat split; reflexivity. Qed.

Example state_re_ex :
  re_match STATE_RE (py "  State   12 ") = Some [py "12"]
  /\ re_match STATE_RE (py "State12") = None
  /\ re_match STATE_RE (py "State 1 2") = None
  /\ re_match STATE_RE (py "state 1") = None.
Proof. repeat split; reflexivity. Qed.

Example item_re_ex :
  re_match ITEM_RE (py "[T, ID, T, =, NT, Expr]: 5")
    = Some [py "T, ID, T, =, NT, Expr"; py "5"]
  /\ re_match ITEM_RE (py " [$end] :12 ") = Some [py "$end"; py "12"]
  /\ re_match ITEM_RE (py "[a], [b]: 5") = Some [py "a], [b"; py "5"]
  /\ re_match ITEM_RE (py "[]:0") = Some [[]; py "0"]
  /\ re_match ITEM_RE (py "[X]: -5") = None
  /\ re_match ITEM_RE (py "[X]: 5 x") = None.
Proof. repeat split; reflexivity. Qed.

(** The scenarios of the specification.  With gap filling the missing state
    comes last. *)
Example convert_scenario_fill : convert scenario true = Some scenario_filled.
Proof. vm_compute. reflexivity. Qed.

Example convert_scenario_no_fill :
  convert scenario false = Some scenario_unfilled.
Proof. vm_compute. reflexivity. Qed.

Example convert_end_marker :
  convert (py "State 3" ++ [LF] ++ py "[$end]: 12") false
  = Some [(py "3", [Item (py "[$end]") 12])].
Proof. vm_compute. reflexivity. Qed.

(** ** The search finds a match exactly when the pattern has one *)

Lemma greedy_sound p k st s g :
  greedy p k st s = Some g →
  ∃ w s', s = w ++ s' ∧ Forall (λ c, p c = true) w ∧ k (eat_all w st) s' = Some g.
Proof.
  revert st. induction s as [|c s IH]; intros st; simpl.
  - intros H. exists [], []. auto.
  - destruct (p c) eqn:Hc.
    + destruct (greedy p k (eat c st) s) as [g'|] eqn:Hg.
      * intros [= <-]. apply IH in Hg as (w & s' & -> & Hw & Hk).
        exists (c :: w), s'. split; [done|]. split; [by constructor|done].
      * intros H. exists [], (c :: s). auto.
    + intros H. exists [], (c :: s). auto.
Qed.

Lemma greedy_complete p k st w s g :
  Forall (λ c, p c = true) w → k (eat_all w st) s = Some g →
  is_Some (greedy p k st (w ++ s)).
Proof.
  intros Hw. revert st. induction Hw as [|c w Hc Hw IH]; intros st Hk; simpl in *.
  - destruct s as [|c s]; simpl; [by eexists|].
    destruct (p c); [|by eexists].
    destruct (greedy p k (eat c st) s); by eexists.
  - rewrite Hc. destruct (IH _ Hk) as [g' ->]. by eexists.
Qed.

Lemma exec_sound r : ∀ st s g, exec r st s = Some g → derive r st s g.
Proof.
  induction r as [|n r IH]; intros st s g; simpl.
  - intros [= <-]. constructor.
  - destruct n.
    + destruct (Nat.eqb_spec (pos st) 0); [|done].
      intros H. constructor; auto.
    + destruct s as [|c [|c' s]]; [| |done].
      * intros H. constructor; auto.
      * case_bool_decide; [subst|done]. intros H. constructor; auto.
    + destruct s as [|c' s]; [done|]. case_bool_decide; [subst|done].
      intros H. constructor; auto.
    + intros H. apply greedy_sound in H as (w & s' & -> & Hw & Hk).
      constructor; auto.
    + destruct s as [|c s]; [done|]. destruct (p c) eqn:Hc; [|done].
      intros H. apply greedy_sound in H as (w & s' & -> & Hw & Hk).
      apply (derive_plus p r st (c :: w) s'); [done|by constructor|].
      simpl. auto.
    + intros H. constructor; auto.
    + intros H. constructor; auto.
Qed.

Lemma exec_complete r st s g : derive r st s g → is_Some (exec r st s).
Proof.
  induction 1 as [st s|r st s g Hp _ IH|r st s g Hs _ IH|c r st s g _ IH
                 |p r st w s g Hw _ IH|p r st w s g Hne Hw _ IH
                 |r st s g _ IH|r st s g _ IH]; simpl.
  - by eexists.
  - rewrite Hp. done.
  - destruct Hs as [->| ->]; [done|]. by rewrite bool_decide_eq_true_2.
  - by rewrite bool_decide_eq_true_2.
  - destruct IH as [g' Hg']. by eapply greedy_complete.
  - destruct Hw as [|c w Hc Hw]; [done|]. simpl. rewrite Hc.
    destruct IH as [g' Hg']. by eapply greedy_complete.
  - done.
  - done.
Qed.

Lemma eat_all_fields w st :
  pos (eat_all w st) = (length w + pos st)%nat
  ∧ opened (eat_all w st) = (app (rev w)) <$> opened st
  ∧ groups (eat_all w st) = groups st.
Proof.
  revert st. induction w as [|c w IH]; intros st; simpl.
  - by destruct (opened st).
  - destruct (IH (eat c st)) as (-> & -> & ->). simpl.
    split; [lia|]. split; [|done].
    destruct (opened st); simpl; [|done]. by rewrite <- app_assoc.
Qed.

(** ** Character classes and runs of one class *)

Ltac each_ascii c :=
  destruct c as [[|] [|] [|] [|] [|] [|] [|] [|]]; vm_compute in *; try done.

Lemma space_not_digit c : is_space c = true → is_digit c = false.
Proof. intros H. each_ascii c. Qed.

Lemma digit_not_space c : is_digit c = true → is_space c = false.
Proof. intros H. each_ascii c. Qed.

Lemma is_dot_iff c : is_dot c = true ↔ c ≠ LF.
Proof. split; intros H; each_ascii c. Qed.

Lemma run_unique (p : ascii → bool) (w w' s s' : str) :
  Forall (λ c, p c = true) w → Forall (λ c, p c = true) w' →
  stops p s → stops p s' → w ++ s = w' ++ s' → w = w' ∧ s = s'.
Proof.
  intros Hw. revert w'. induction Hw as [|c w Hc Hw IH]; intros w' Hw' Hs Hs' E.
  - destruct Hw' as [|c' w' Hc' Hw']; [done|].
    simpl in E. subst s. simpl in Hs. congruence.
  - destruct Hw' as [|c' w' Hc' Hw'].
    + simpl in E. subst s'. simpl in Hs'. congruence.
    + simpl in E. injection E as -> E.
      destruct (IH w' Hw' Hs Hs' E) as [-> ->]. done.
Qed.

Lemma last_unique (c : ascii) (a a' b b' : str) :
  c ∉ b → c ∉ b' → a ++ c :: b = a' ++ c :: b' → a = a' ∧ b = b'.
Proof.
  revert a'. induction a as [|x a IH]; intros a' Hb Hb' E.
  - destruct a' as [|x' a']; simpl in E.
    + by injection E as ->.
    + injection E as -> ->. exfalso. apply Hb.
      apply elem_of_app. right. left.
  - destruct a' as [|x' a']; simpl in E.
    + injection E as -> <-. exfalso. apply Hb'.
      apply elem_of_app. right. left.
    + injection E as -> E. destruct (IH a' Hb Hb' E) as [-> ->]. done.
Qed.

Lemma stops_space_digits ds s : digits ds → stops is_space (ds ++ s).
Proof.
  intros [Hne Hd]. destruct Hd as [|c ds Hc Hd]; [done|].
  simpl. by apply digit_not_space.
Qed.

Lemma stops_digit_blank w : blank w → stops is_digit w.
Proof. intros [|c w' Hc Hw]; simpl; [done|]. by apply space_not_digit. Qed.

Lemma blank_app w w' : blank w → blank w' → blank (w ++ w').
Proof. apply Forall_app_2. Qed.

Lemma blank_eol s : s = [] ∨ s = [LF] → blank s.
Proof. intros [->| ->]; [constructor|]. repeat constructor. Qed.

(** ** What the two patterns accept and capture *)

Lemma eat_all_groups w st : groups (eat_all w st) = groups st.
Proof. apply eat_all_fields. Qed.

Lemma eat_all_opened w st : opened (eat_all w st) = app (rev w) <$> opened st.
Proof. apply eat_all_fields. Qed.

Ltac inv_derive :=
  repeat match goal with
  | H : derive (_ :: _) _ _ _ |- _ => inversion H; subst; clear H
  | H : derive [] _ _ _ |- _ => inversion H; subst; clear H
  end.

Ltac simpl_groups :=
  repeat first [ rewrite eat_all_groups | rewrite eat_all_opened
               | progress cbn [groups opened close_group open_group eat
                               fmap option_fmap option_map default rev app] ];
  cbn; rewrite ?app_nil_r, ?rev_involutive.

(** What [STATE_RE] accepts, and what it captures. *)
Lemma state_re_shape line g :
  re_match STATE_RE line = Some g → ∃ ds, g = [ds] ∧ header_shape line ds.
Proof.
  intros H. apply exec_sound in H.
  unfold STATE_RE, lits in H. cbn [py list_ascii_of_string fmap list_fmap app] in H.
  inv_derive. exists w1. split.
  - simpl_groups. done.
  - exists w, w0, (w2 ++ s). split; [done|].
    repeat split; auto using blank_app, blank_eol.
Qed.

Lemma header_shape_unique line ds ds' :
  header_shape line ds → header_shape line ds' → ds = ds'.
Proof.
  intros (w1 & w2 & w3 & -> & B1 & B2 & N2 & D & B3)
         (v1 & v2 & v3 & E & C1 & C2 & M2 & D' & C3).
  apply run_unique with (p := is_space) in E as [-> E]; [|done..].
  apply (app_inv_head (py "State")) in E.
  apply run_unique with (p := is_space) in E as [-> E];
    [|done|done|by apply stops_space_digits..].
  apply run_unique with (p := is_digit) in E as [-> E];
    [done|apply D|apply D'|by apply stops_digit_blank..].
Qed.

Lemma state_re_match line ds :
  header_shape line ds → re_match STATE_RE line = Some [ds].
Proof.
  intros Hs.
  assert (is_Some (re_match STATE_RE line)) as [g Hg].
  { destruct Hs as (w1 & w2 & w3 & -> & B1 & B2 & N2 & [N D] & B3).
    rewrite <- (app_nil_r w3). eapply exec_complete.
    unfold STATE_RE, lits. cbn [py list_ascii_of_string fmap list_fmap app].
    apply derive_bol; [done|]. apply derive_star; [done|].
    do 5 apply derive_lit.
    apply derive_plus; [done..|]. apply derive_open.
    apply derive_plus; [done..|]. apply derive_close.
    apply derive_star; [done|].
    apply derive_eol; [by left|]. apply derive_nil. }
  rewrite Hg. destruct (state_re_shape _ _ Hg) as (ds' & -> & Hs').
  by rewrite (header_shape_unique _ _ _ Hs Hs').
Qed.

Lemma class_not_elem (p : ascii → bool) (x : ascii) (w : str) :
  Forall (λ c, p c = true) w → p x = false → x ∉ w.
Proof.
  intros Hw Hx Hin. rewrite Forall_forall in Hw. apply Hw in Hin. congruence.
Qed.

Lemma not_elem_class (p : ascii → bool) (x : ascii) (w : str) :
  (∀ c, c ≠ x → p c = true) → x ∉ w → Forall (λ c, p c = true) w.
Proof.
  intros Hp Hx. apply Forall_forall. intros c Hc. apply Hp. by intros ->.
Qed.

(** What [ITEM_RE] accepts, and what it captures. *)
Lemma item_re_shape line g :
  re_match ITEM_RE line = Some g →
  ∃ inner ds, g = [inner; ds] ∧ item_shape line inner ds.
Proof.
  intros H. apply exec_sound in H. unfold ITEM_RE in H.
  inv_derive. exists w0, w3. split.
  - simpl_groups. done.
  - exists w, w1, w2, (w4 ++ s). split; [done|].
    repeat split; auto using blank_app, blank_eol.
    apply (class_not_elem is_dot); done.
Qed.

Lemma item_tail_no_bracket w2 w3 ds w4 :
  blank w2 → blank w3 → digits ds → blank w4 →
  "]"%char ∉ w2 ++ py ":" ++ w3 ++ ds ++ w4.
Proof.
  intros B2 B3 [_ D] B4.
  change (py ":") with [":"%char].
  rewrite !not_elem_of_app, not_elem_of_cons.
  repeat split;
    try (by apply (class_not_elem is_space));
    try (by apply (class_not_elem is_digit)); try done.
Qed.

Lemma item_shape_unique line inner ds inner' ds' :
  item_shape line inner ds → item_shape line inner' ds' →
  inner = inner' ∧ ds = ds'.
Proof.
  intros (w1 & w2 & w3 & w4 & -> & B1 & L & B2 & B3 & D & B4)
         (v1 & v2 & v3 & v4 & E & C1 & L' & C2 & C3 & D' & C4).
  apply run_unique with (p := is_space) in E as [-> E]; [|done..].
  simpl in E. injection E as E.
  apply last_unique in E as [-> E]; [|by apply item_tail_no_bracket..].
  split; [done|].
  apply run_unique with (p := is_space) in E as [-> E]; [|done..].
  simpl in E. injection E as E.
  apply run_unique with (p := is_space) in E as [-> E];
    [|done|done|by apply stops_space_digits..].
  apply run_unique with (p := is_digit) in E as [-> E];
    [done|apply D|apply D'|by apply stops_digit_blank..].
Qed.

Lemma item_re_match line inner ds :
  item_shape line inner ds → re_match ITEM_RE line = Some [inner; ds].
Proof.
  intros Hs.
  assert (is_Some (re_match ITEM_RE line)) as [g Hg].
  { destruct Hs as (w1 & w2 & w3 & w4 & -> & B1 & L & B2 & B3 & [N D] & B4).
    rewrite <- (app_nil_r w4). eapply exec_complete. unfold ITEM_RE.
    apply derive_bol; [done|]. apply derive_star; [done|].
    apply derive_lit, derive_open. apply derive_star.
    { eapply not_elem_class; [|done]. intros c. by rewrite is_dot_iff. }
    apply derive_close, derive_lit. apply derive_star; [done|].
    apply derive_lit. apply derive_star; [done|].
    apply derive_open. apply derive_plus; [done..|]. apply derive_close.
    apply derive_star; [done|].
    apply derive_eol; [by left|]. apply derive_nil. }
  rewrite Hg. destruct (item_re_shape _ _ Hg) as (i' & d' & -> & Hs').
  by destruct (item_shape_unique _ _ _ _ _ Hs Hs') as [-> ->].
Qed.

(** ** Integers *)

Lemma int_from_digits ds : ∀ acc,
  0 ≤ acc → Forall (λ c, is_digit c = true) ds →
  ∃ n, int_from acc ds = Some n ∧ 0 ≤ n.
Proof.
  induction ds as [|c ds IH]; intros acc Ha Hd; simpl.
  - by exists acc.
  - apply Forall_cons in Hd as [Hc Hd]. unfold digit_value. rewrite Hc. simpl.
    apply IH; [|done].
    assert (48 ≤ Z.of_N (code c)); [|lia].
    unfold is_digit in Hc. apply andb_true_iff in Hc as [Hc _].
    apply N.leb_le in Hc. lia.
Qed.

Lemma digit_value_range c d : digit_value c = Some d → 0 ≤ d ≤ 9.
Proof.
  unfold digit_value, is_digit.
  destruct ((48 <=? code c)%N && (code c <=? 57)%N) eqn:E; [|done].
  intros [= <-]. apply andb_true_iff in E as [H1 H2].
  apply N.leb_le in H1, H2. lia.
Qed.

Lemma int_from_Some_digits ds : ∀ acc n,
  int_from acc ds = Some n → Forall (λ c, is_digit c = true) ds.
Proof.
  induction ds as [|c ds IH]; intros acc n; simpl; [done|].
  unfold digit_value. destruct (is_digit c) eqn:Ec; [|done]. simpl.
  intros H. constructor; [done|]. by eapply IH.
Qed.

(** The value of the digits [ds] read after [acc]. *)
Lemma int_from_bounds ds : ∀ acc n,
  0 ≤ acc → int_from acc ds = Some n →
  acc * 10 ^ Z.of_nat (length ds) ≤ n < (acc + 1) * 10 ^ Z.of_nat (length ds).
Proof.
  induction ds as [|c ds IH]; intros acc n Ha; simpl int_from.
  - intros [= <-]. simpl. lia.
  - destruct (digit_value c) as [d|] eqn:Ed; [|done]. simpl.
    intros H. apply digit_value_range in Ed. apply IH in H; [|lia].
    cbn [length]. rewrite Nat2Z.inj_succ, Z.pow_succ_r by lia.
    assert (0 < 10 ^ Z.of_nat (length ds)) by (apply Z.pow_pos_nonneg; lia).
    nia.
Qed.

(** [int] succeeds on what [\d+] captures when the digits are not more than
    the limit, and its value is not negative. *)
Lemma int_of_digits ds :
  digits ds → Z.of_nat (length ds) ≤ MAX_STR_DIGITS →
  ∃ n, int_of_str ds = Some n ∧ 0 ≤ n.
Proof.
  intros [Hne Hd] Hlen. destruct ds as [|c ds]; [done|].
  unfold int_of_str. rewrite (proj2 (Z.ltb_ge _ _)) by done.
  by apply int_from_digits.
Qed.

(** [int] raises on more digits than the limit. *)
Lemma int_of_str_long ds :
  MAX_STR_DIGITS < Z.of_nat (length ds) → int_of_str ds = None.
Proof.
  intros Hlen. destruct ds as [|c ds]; [done|].
  unfold int_of_str. by rewrite (proj2 (Z.ltb_lt _ _)).
Qed.

(** What [int] has read when it returns. *)
Lemma int_of_str_Some ds n :
  int_of_str ds = Some n →
  digits ds ∧ Z.of_nat (length ds) ≤ MAX_STR_DIGITS ∧ int_from 0 ds = Some n.
Proof.
  destruct ds as [|c ds]; [done|]. unfold int_of_str.
  destruct (MAX_STR_DIGITS <? Z.of_nat (length (c :: ds))) eqn:E; [done|].
  apply Z.ltb_ge in E. intros H. split; [|done].
  split; [done|]. by eapply int_from_Some_digits.
Qed.

Lemma int_of_str_nonneg ds n : int_of_str ds = Some n → 0 ≤ n.
Proof.
  intros H. apply int_of_str_Some in H as (_ & _ & H).
  apply int_from_bounds in H; lia.
Qed.

Lemma py_inj s s' : py s = py s' → s = s'.
Proof.
  intros H. rewrite <- (string_of_list_ascii_of_string s),
    <- (string_of_list_ascii_of_string s'). unfold py in H. by rewrite H.
Qed.

Lemma to_int_inj a b : Z.to_int a = Z.to_int b → a = b.
Proof.
  intros H. rewrite <- (DecimalZ.of_to a), <- (DecimalZ.of_to b). by rewrite H.
Qed.

Lemma to_int_not_nil a : Z.to_int a ≠ Decimal.Pos Decimal.Nil ∧ Z.to_int a ≠ Decimal.Neg Decimal.Nil.
Proof.
  destruct a as [|p|p]; simpl; split; try done;
    intros [= H]; by apply DecimalPos.Unsigned.to_uint_nonnil in H.
Qed.

(** [str] gives different integers different names. *)
Lemma decimal_inj a b : decimal a = decimal b → a = b.
Proof.
  intros H. apply py_inj in H. apply to_int_inj.
  destruct (to_int_not_nil a), (to_int_not_nil b).
  assert (NilZero.int_of_string (NilZero.string_of_int (Z.to_int a))
          = NilZero.int_of_string (NilZero.string_of_int (Z.to_int b))) as E
    by (by rewrite H).
  rewrite !NilZero.isi in E by done. by injection E.
Qed.

Global Instance decimal_injective : Inj (=) (=) decimal.
Proof. intros a b. apply decimal_inj. Qed.


Lemma int_from_uint_acc d : ∀ acc,
  int_from (Z.pos acc) (py (NilEmpty.string_of_uint d))
  = Some (Z.pos (Pos.of_uint_acc d acc)).
Proof.
  induction d as [|d IH|d IH|d IH|d IH|d IH|d IH|d IH|d IH|d IH|d IH];
    intros acc; [done|..];
    cbn [NilEmpty.string_of_uint py list_ascii_of_string int_from Pos.of_uint_acc];
    fold (py (NilEmpty.string_of_uint d));
    (match goal with
     | |- context [digit_value ?c] =>
         let v := eval vm_compute in (digit_value c) in
         change (digit_value c) with v
     end);
    cbn [mbind option_bind];
    (match goal with
     | |- int_from ?z _ = Some (Z.pos (Pos.of_uint_acc _ ?p)) =>
         replace z with (Z.pos p) by lia
     end);
    apply IH.
Qed.

Lemma int_from_uint d :
  int_from 0 (py (NilEmpty.string_of_uint d)) = Some (Z.of_N (Pos.of_uint d)).
Proof.
  induction d as [|d IH|d IH|d IH|d IH|d IH|d IH|d IH|d IH|d IH|d IH];
    [done|exact IH|..];
    cbn [NilEmpty.string_of_uint py list_ascii_of_string int_from Pos.of_uint];
    fold (py (NilEmpty.string_of_uint d));
    (match goal with
     | |- context [digit_value ?c] =>
         let v := eval vm_compute in (digit_value c) in
         change (digit_value c) with v
     end);
    cbn [mbind option_bind Z.of_N];
    (match goal with
     | |- int_from ?z _ = Some (Z.pos (Pos.of_uint_acc _ ?p)) =>
         replace z with (Z.pos p) by lia
     end);
    apply int_from_uint_acc.
Qed.

Lemma decimal_pos p :
  decimal (Z.pos p) = py (NilEmpty.string_of_uint (Pos.to_uint p)).
Proof.
  unfold decimal. simpl Z.to_int. simpl NilZero.string_of_int.
  unfold NilZero.string_of_uint.
  pose proof (DecimalPos.Unsigned.to_uint_nonnil p) as Hnil.
  by destruct (Pos.to_uint p).
Qed.

(** The decimal form of a natural number reads back as the number. *)
Lemma int_from_decimal n : 0 ≤ n → int_from 0 (decimal n) = Some n.
Proof.
  intros Hn. destruct n as [|p|p]; [done| |lia].
  rewrite decimal_pos, int_from_uint.
  by rewrite DecimalPos.Unsigned.of_to.
Qed.

(** The decimal form of a positive number does not start with a zero. *)
Lemma to_uint_head p :
  match Pos.to_uint p with
  | Decimal.Nil | Decimal.D0 _ => False
  | _ => True
  end.
Proof.
  pose proof (DecimalPos.Unsigned.to_of (Pos.to_uint p)) as E.
  rewrite DecimalPos.Unsigned.of_to in E. simpl N.to_uint in E.
  pose proof (DecimalPos.Unsigned.to_uint_nonnil p) as Hnil.
  pose proof (DecimalPos.Unsigned.to_uint_nonzero p) as Hnz.
  destruct (Pos.to_uint p) as [|d|d|d|d|d|d|d|d|d|d]; try done.
  unfold Decimal.unorm in E. rewrite DecimalFacts.nzhead_D0 in E.
  pose proof (DecimalFacts.nzhead_nonzero d d) as Hd.
  destruct (Decimal.nzhead d); congruence.
Qed.

Lemma decimal_not_nil n : decimal n ≠ [].
Proof.
  destruct n as [|p|p]; [done| |done].
  rewrite decimal_pos. pose proof (to_uint_head p).
  by destruct (Pos.to_uint p).
Qed.

Lemma decimal_upper n : 0 ≤ n → n < 10 ^ Z.of_nat (length (decimal n)).
Proof.
  intros Hn. pose proof (int_from_bounds _ 0 n ltac:(done) (int_from_decimal n Hn)).
  lia.
Qed.

Lemma decimal_lower n :
  0 < n → 10 ^ (Z.of_nat (length (decimal n)) - 1) ≤ n.
Proof.
  intros Hn. pose proof (int_from_decimal n ltac:(lia)) as E.
  destruct n as [|p|p]; [lia| |lia]. rewrite decimal_pos in E |- *.
  pose proof (to_uint_head p) as Hh.
  destruct (Pos.to_uint p) as [|d|d|d|d|d|d|d|d|d|d]; try done;
    cbn [NilEmpty.string_of_uint py list_ascii_of_string int_from] in E |- *;
    fold (py (NilEmpty.string_of_uint d)) in E |- *;
    (match type of E with
     | context [digit_value ?c] =>
         let v := eval vm_compute in (digit_value c) in
         change (digit_value c) with v in E
     end);
    cbn [mbind option_bind] in E;
    apply int_from_bounds in E; try lia;
    rewrite length_cons, Nat2Z.inj_succ;
    replace (Z.succ (Z.of_nat (length (py (NilEmpty.string_of_uint d)))) - 1)
      with (Z.of_nat (length (py (NilEmpty.string_of_uint d)))) by lia;
    lia.
Qed.

(** A natural number below the power of ten of [L] has at most [L]
    digits. *)
Lemma decimal_length_le n (L : nat) :
  0 ≤ n → n < 10 ^ Z.of_nat L → (0 < L)%nat → (length (decimal n) ≤ L)%nat.
Proof.
  intros Hn Hlt HL. destruct (decide (n = 0)) as [->|Hnz].
  { change (length (decimal 0)) with 1%nat. lia. }
  pose proof (decimal_lower n ltac:(lia)) as Hlow.
  assert (10 ^ (Z.of_nat (length (decimal n)) - 1) < 10 ^ Z.of_nat L) as Hp by lia.
  apply Z.pow_lt_mono_r_iff in Hp; lia.
Qed.

Lemma decimal_length_mono a b :
  0 ≤ a ≤ b → (length (decimal a) ≤ length (decimal b))%nat.
Proof.
  intros Hab. apply decimal_length_le; [lia| |].
  - pose proof (decimal_upper b ltac:(lia)). lia.
  - pose proof (decimal_not_nil b). destruct (decimal b); [done|simpl; lia].
Qed.

(** ** [str] and [int] *)

(** What [str] returns is the decimal form. *)
Lemma str_of_int_Some n k : str_of_int n = Some k → k = decimal n.
Proof. unfold str_of_int. case_match; [done|]. by intros [= <-]. Qed.

Lemma str_of_int_decimal n :
  0 ≤ n → Z.of_nat (length (decimal n)) ≤ MAX_STR_DIGITS →
  str_of_int n = Some (decimal n).
Proof.
  intros Hn Hlen. unfold str_of_int. rewrite Z.abs_eq by done.
  by rewrite (proj2 (Z.ltb_ge _ _)).
Qed.

Lemma str_of_int_length n k :
  0 ≤ n → str_of_int n = Some k →
  Z.of_nat (length (decimal n)) ≤ MAX_STR_DIGITS.
Proof.
  intros Hn. unfold str_of_int. rewrite Z.abs_eq by done.
  destruct (MAX_STR_DIGITS <? Z.of_nat (length (decimal n))) eqn:E; [done|].
  intros _. by apply Z.ltb_ge in E.
Qed.

(** [str] writes every natural number below one that it writes. *)
Lemma str_of_int_le a b :
  0 ≤ a ≤ b → is_Some (str_of_int b) → str_of_int a = Some (decimal a).
Proof.
  intros Hab [k Hk]. apply str_of_int_length in Hk; [|lia].
  apply str_of_int_decimal; [lia|].
  pose proof (decimal_length_mono a b Hab). lia.
Qed.

(** [str] writes every number that [int] has read. *)
Lemma str_of_int_read ds n :
  int_of_str ds = Some n → str_of_int n = Some (decimal n).
Proof.
  intros H. apply int_of_str_Some in H as ([Hne _] & Hlen & H).
  apply int_from_bounds in H; [|done].
  apply str_of_int_decimal; [lia|].
  assert (length (decimal n) ≤ length ds)%nat; [|lia].
  apply decimal_length_le; [lia|lia|]. destruct ds; [done|simpl; lia].
Qed.

(** [int] reads what [str] has written. *)
Lemma int_of_decimal n k :
  0 ≤ n → str_of_int n = Some k → int_of_str k = Some n.
Proof.
  intros Hn Hk. pose proof (str_of_int_length _ _ Hn Hk) as Hlen.
  apply str_of_int_Some in Hk as ->.
  pose proof (int_from_decimal n Hn) as E. unfold int_of_str.
  destruct (decimal n) as [|c r] eqn:Ed.
  { simpl in E. injection E as <-. done. }
  by rewrite (proj2 (Z.ltb_ge _ _)).
Qed.

(** ** The table *)

Lemma getitem_app k d d' :
  getitem k (d ++ d') = match getitem k d with
                        | Some v => Some v
                        | None => getitem k d'
                        end.
Proof.
  induction d as [|[k' v] d IH]; simpl; [done|]. by case_decide.
Qed.

Lemma getitem_None k d : getitem k d = None ↔ k ∉ keys d.
Proof.
  unfold keys. induction d as [|[k' v] d IH]; simpl.
  - split; [intros _; apply not_elem_of_nil|done].
  - rewrite not_elem_of_cons. case_decide; split; try done.
    + intros [? _]. congruence.
    + intros H'. split; [congruence|by apply IH].
    + intros [_ H']. by apply IH.
Qed.

Lemma getitem_is_Some k d : is_Some (getitem k d) ↔ k ∈ keys d.
Proof.
  destruct (getitem k d) as [v|] eqn:E.
  - split; [intros _|by eexists].
    destruct (decide (k ∈ keys d)) as [|Hn]; [done|].
    apply getitem_None in Hn. congruence.
  - apply getitem_None in E. split; [by intros [? ?]|done].
Qed.

Lemma keys_setdefault k v d : keys (setdefault k v d) = first_seen_add (keys d) k.
Proof.
  unfold setdefault, first_seen_add.
  destruct (getitem k d) as [x|] eqn:E.
  - rewrite decide_True; [done|]. apply getitem_is_Some. by eexists.
  - apply getitem_None in E. rewrite decide_False by done.
    unfold keys. by rewrite fmap_app.
Qed.

Lemma getitem_setdefault k' k v d :
  getitem k' (setdefault k v d)
  = match getitem k' d with
    | Some x => Some x
    | None => if decide (k = k') then Some v else None
    end.
Proof.
  unfold setdefault. destruct (getitem k d) as [x|] eqn:E.
  - destruct (getitem k' d) eqn:E'; [done|].
    case_decide; [congruence|done].
  - rewrite getitem_app. destruct (getitem k' d); [done|]. done.
Qed.

Lemma append_to_add k x d :
  is_Some (getitem k d) → append_to k x d = Some (add_entry k x d).
Proof.
  induction d as [|[k' v] d IH]; simpl; [by intros [? ?]|].
  case_decide; [done|]. intros H'. by rewrite IH.
Qed.

Lemma keys_add_entry k x d : keys (add_entry k x d) = keys d.
Proof.
  unfold keys. induction d as [|[k' v] d IH]; simpl; [done|].
  case_decide; simpl; [done|]. f_equal. apply IH.
Qed.

Lemma getitem_add_entry k' k x d :
  getitem k' (add_entry k x d)
  = if decide (k = k') then (λ v, v ++ [x]) <$> getitem k' d else getitem k' d.
Proof.
  induction d as [|[k0 v] d IH]; simpl.
  - by case_decide.
  - destruct (decide (k0 = k)) as [->|Hk]; simpl.
    + by destruct (decide (k = k')).
    + rewrite IH. destruct (decide (k0 = k')) as [->|]; [|done].
      by rewrite decide_False.
Qed.

(** ** One turn of the loop *)

Lemma classify_header line n :
  classify line = Header n → 0 ≤ n ∧ str_of_int n = Some (decimal n).
Proof.
  unfold classify. destruct (re_match STATE_RE line) as [m|] eqn:E.
  - destruct (group m 1) as [g|]; [|done]. simpl.
    destruct (int_of_str g) as [v|] eqn:Ev; [|done]. intros [= <-].
    split; [by eapply int_of_str_nonneg|by eapply str_of_int_read].
  - destruct (re_match ITEM_RE line) as [m|]; [|done].
    by destruct (group m 1), (group m 2 ≫= int_of_str).
Qed.

Lemma classify_entry line it :
  classify line = Entry it → 0 ≤ value it.
Proof.
  unfold classify. destruct (re_match STATE_RE line) as [m|] eqn:E.
  - by destruct (group m 1 ≫= int_of_str).
  - destruct (re_match ITEM_RE line) as [m|] eqn:E'; [|done].
    destruct (group m 1) as [inner|], (group m 2) as [g|]; simpl; try done.
    destruct (int_of_str g) as [v|] eqn:Ev; [|done]. intros [= <-]. simpl.
    by eapply int_of_str_nonneg.
Qed.

(** [step] does what the kind of the line says, when it raises nothing. *)
Lemma step_apply st line st' :
  ready st → step st line = Some st' → st' = apply_kind st (classify line).
Proof.
  intros Hr. unfold step, classify.
  destruct (re_match STATE_RE line) as [m|] eqn:E.
  - destruct (group m 1) as [g|]; [|done]. simpl.
    destruct (int_of_str g) as [cs|] eqn:Ecs; [|done]. simpl.
    destruct (str_of_int cs) as [k|] eqn:Ek; [|done]. simpl.
    apply str_of_int_Some in Ek as ->. by intros [= <-].
  - destruct (re_match ITEM_RE line) as [m|] eqn:E'; [|by intros [= <-]].
    destruct (current_state st) as [cs|] eqn:Ec.
    + destruct (group m 1) as [inner|], (group m 2) as [g|]; simpl; try done.
      destruct (int_of_str g) as [v|]; simpl; [|done].
      destruct (str_of_int cs) as [k|] eqn:Ek; simpl; [|done].
      apply str_of_int_Some in Ek as ->.
      rewrite append_to_add by auto. simpl. rewrite Ec. by intros [= <-].
    + intros [= <-].
      destruct (group m 1), (group m 2 ≫= int_of_str); simpl; by rewrite ?Ec.
Qed.


(** A line that neither pattern accepts changes nothing. *)
Lemma step_no_match st line :
  re_match STATE_RE line = None → re_match ITEM_RE line = None →
  step st line = Some st.
Proof. intros H1 H2. unfold step. by rewrite H1, H2. Qed.

(** Before the first header the loop changes nothing. *)
Lemma step_no_state st line :
  current_state st = None → re_match STATE_RE line = None →
  step st line = Some st.
Proof.
  intros Ec E. unfold step. rewrite E, Ec.
  by destruct (re_match ITEM_RE line).
Qed.

Lemma apply_kind_ready st k : ready st → ready (apply_kind st k).
Proof.
  intros Hr. destruct k as [n|it|]; simpl; [| |done].
  - intros cs [= <-]. simpl. apply getitem_is_Some.
    rewrite keys_setdefault. unfold first_seen_add.
    case_decide; [done|]. apply elem_of_app. right. by left.
  - destruct (current_state st) as [cs|] eqn:Ec; [|done].
    intros cs' [= <-]. simpl. apply getitem_is_Some. rewrite keys_add_entry.
    apply getitem_is_Some. auto.
Qed.

Lemma run_ready lines : ∀ st, ready st → ready (run st lines).
Proof.
  induction lines as [|l ls IH]; intros st Hr; simpl; [done|].
  apply IH. by apply apply_kind_ready.
Qed.

Lemma apply_kind_writable st line :
  writable st → writable (apply_kind st (classify line)).
Proof.
  intros [Hc Hm]. destruct (classify line) as [n|it|] eqn:E; simpl; [| |done].
  - apply classify_header in E as [Hn Hs]. split; simpl.
    + intros cs [= <-]. by eexists.
    + intros s Hs'. destruct (decide (s ≤ max_state_seen st)) as [Hle|Hgt].
      * apply Hm. lia.
      * rewrite (str_of_int_le s n); [by eexists|lia|by eexists].
  - destruct (current_state st) as [cs|] eqn:Ec.
    + split; simpl; [|done]. intros cs' [= <-]. by apply Hc.
    + split; [|done]. intros cs. by rewrite Ec.
Qed.

Lemma run_writable lines : ∀ st, writable st → writable (run st lines).
Proof.
  induction lines as [|l ls IH]; intros st Hw; simpl; [done|].
  apply IH. by apply apply_kind_writable.
Qed.

(** The loop does what the kinds of the lines say, when it raises nothing. *)
Lemma scan_lines_run lines : ∀ st st',
  ready st → scan_lines st lines = Some st' → st' = run st lines.
Proof.
  induction lines as [|l ls IH]; intros st st' Hr; simpl.
  { by intros [= <-]. }
  destruct (step st l) as [st1|] eqn:E; [|done]. simpl.
  apply step_apply in E as ->; [|done]. apply IH. by apply apply_kind_ready.
Qed.


Lemma scan_lines_app l1 l2 st :
  scan_lines st (l1 ++ l2) = scan_lines st l1 ≫= λ st', scan_lines st' l2.
Proof.
  revert st. induction l1 as [|l l1 IH]; intros st; simpl; [done|].
  destruct (step st l) as [st1|]; [|done]. simpl. apply IH.
Qed.

Lemma ready_init : ready scan_init.
Proof. intros cs. done. Qed.

Lemma writable_init : writable scan_init.
Proof. split; [done|]. simpl. lia. Qed.

(** The gap filling writes the names it can write. *)
Lemma fill_Some ss : ∀ d d',
  fill d ss = Some d' → d' = foldl (λ d s, setdefault (decimal s) [] d) d ss.
Proof.
  induction ss as [|s ss IH]; intros d d'; simpl; [by intros [= <-]|].
  destruct (str_of_int s) as [k|] eqn:Ek; [|done]. simpl.
  apply str_of_int_Some in Ek as ->. apply IH.
Qed.

Lemma fill_writable ss : ∀ d,
  Forall (λ s, is_Some (str_of_int s)) ss →
  fill d ss = Some (foldl (λ d s, setdefault (decimal s) [] d) d ss).
Proof.
  induction ss as [|s ss IH]; intros d Hs; simpl; [done|].
  apply Forall_cons in Hs as [[k Hk] Hs]. rewrite Hk. simpl.
  apply str_of_int_Some in Hk as ->. by apply IH.
Qed.

Lemma fill_states_writable st : writable st → fill_states st = Some (filled st).
Proof.
  intros [_ Hm]. unfold fill_states, filled. apply fill_writable.
  apply Forall_forall. intros s Hs. unfold range in Hs.
  apply elem_of_seqZ in Hs. apply Hm. lia.
Qed.

(** [convert] does not see a line that neither pattern accepts. *)
Lemma convert_lines_skip pre line post b :
  re_match STATE_RE line = None → re_match ITEM_RE line = None →
  convert_lines (pre ++ line :: post) b = convert_lines (pre ++ post) b.
Proof.
  intros H1 H2. unfold convert_lines. rewrite !scan_lines_app.
  destruct (scan_lines scan_init pre) as [st|]; [|done]. simpl.
  by rewrite step_no_match.
Qed.

(** What [convert] returns, when it returns, is the table of the lines. *)
Lemma convert_lines_table lines b d :
  convert_lines lines b = Some d → d = table lines b.
Proof.
  unfold convert_lines, table.
  destruct (scan_lines scan_init lines) as [st|] eqn:E; [|done]. simpl.
  apply scan_lines_run in E as ->; [|apply ready_init].
  destruct b; [|by intros [= <-]].
  rewrite fill_states_writable by apply run_writable, writable_init.
  by intros [= <-].
Qed.



(** ** First places *)

Section first_seen.
Context {A : Type} `{EqDecision A}.
Implicit Types (acc l : list A) (x : A).

Lemma elem_of_first_seen_add acc x y :
  y ∈ first_seen_add acc x ↔ y ∈ acc ∨ y = x.
Proof.
  unfold first_seen_add. case_decide.
  - split; [auto|]. intros [?| ->]; done.
  - rewrite elem_of_app, list_elem_of_singleton. done.
Qed.

Lemma elem_of_first_seen_from l : ∀ acc y,
  y ∈ foldl first_seen_add acc l ↔ y ∈ acc ∨ y ∈ l.
Proof.
  induction l as [|x l IH]; intros acc y; simpl.
  - rewrite elem_of_nil. tauto.
  - rewrite IH, elem_of_first_seen_add, elem_of_cons. tauto.
Qed.

Lemma elem_of_first_seen l y : y ∈ first_seen l ↔ y ∈ l.
Proof.
  unfold first_seen. rewrite elem_of_first_seen_from, elem_of_nil. tauto.
Qed.

Lemma NoDup_first_seen_from l : ∀ acc,
  NoDup acc → NoDup (foldl first_seen_add acc l).
Proof.
  induction l as [|x l IH]; intros acc Hacc; simpl; [done|].
  apply IH. unfold first_seen_add. case_decide; [done|].
  apply NoDup_app. split; [done|]. split.
  - intros y Hy ->%list_elem_of_singleton. done.
  - apply NoDup_singleton.
Qed.

Lemma NoDup_first_seen l : NoDup (first_seen l).
Proof. apply NoDup_first_seen_from, NoDup_nil_2. Qed.

Lemma first_seen_from_prefix l : ∀ acc,
  ∃ more, foldl first_seen_add acc l = acc ++ more.
Proof.
  induction l as [|x l IH]; intros acc; simpl.
  - exists []. by rewrite app_nil_r.
  - destruct (IH (first_seen_add acc x)) as [more ->].
    unfold first_seen_add. case_decide; [by eexists|].
    exists (x :: more). by rewrite <- app_assoc.
Qed.

Lemma filter_fresh (P Q : A → Prop) `{∀ x, Decision (P x)} `{∀ x, Decision (Q x)} l :
  (∀ x, x ∈ l → P x ↔ Q x) → filter P l = filter Q l.
Proof.
  induction l as [|x l IH]; intros HPQ; [done|].
  rewrite !filter_cons.
  assert (P x ↔ Q x) as Hx by (apply HPQ; left).
  rewrite IH by (intros y Hy; apply HPQ; by right).
  destruct (decide (P x)), (decide (Q x)); tauto.
Qed.

(** Adding a list without repetitions: the new elements come after the
    old ones, in their order. *)
Lemma first_seen_from_NoDup l : ∀ acc,
  NoDup l → foldl first_seen_add acc l = acc ++ filter (.∉ acc) l.
Proof.
  induction l as [|x l IH]; intros acc Hl; simpl.
  - by rewrite app_nil_r.
  - apply NoDup_cons in Hl as [Hx Hl]. rewrite IH by done.
    rewrite filter_cons. unfold first_seen_add.
    destruct (decide (x ∈ acc)) as [Hin|Hin].
    + by rewrite decide_False by tauto.
    + rewrite decide_True by done. rewrite <- app_assoc. simpl.
      do 2 f_equal. apply filter_fresh. intros y Hy.
      rewrite not_elem_of_app, list_elem_of_singleton.
      split; [tauto|]. intros ?. split; [done|]. by intros ->.
Qed.
End first_seen.

Lemma first_seen_from_fmap {A B} `{EqDecision A} `{EqDecision B}
    (f : A → B) `{!Inj (=) (=) f} (l : list A) : ∀ acc,
  foldl first_seen_add (f <$> acc) (f <$> l) = f <$> foldl first_seen_add acc l.
Proof.
  induction l as [|x l IH]; intros acc; simpl; [done|].
  rewrite <- IH. f_equal. unfold first_seen_add.
  destruct (decide (x ∈ acc)) as [Hin|Hin].
  - rewrite decide_True; [done|]. by apply list_elem_of_fmap_2.
  - rewrite decide_False; [by rewrite fmap_app|].
    intros (y & E & Hy)%list_elem_of_fmap. apply (inj f) in E. by subst.
Qed.

Lemma max_of_from l : ∀ m,
  (∀ x, x ∈ l → x ≤ foldl Z.max m l) ∧ m ≤ foldl Z.max m l
  ∧ (foldl Z.max m l = m ∨ foldl Z.max m l ∈ l).
Proof.
  induction l as [|x l IH]; intros m; simpl.
  - split; [by intros x ?%elem_of_nil|]. split; [lia|by left].
  - destruct (IH (Z.max m x)) as (Hle & Hm & Hin). split; [|split].
    + intros y [->|Hy]%elem_of_cons; [lia|by apply Hle].
    + lia.
    + destruct Hin as [E|Hin]; [|right; by right].
      rewrite E. destruct (Z.max_spec m x) as [[_ ->]|[_ ->]]; [right; left|by left].
Qed.

(** [max_of] is the largest element of a list of numbers from 0 on. *)
Lemma max_of_spec l :
  (∀ x, x ∈ l → x ≤ max_of l) ∧ (l ≠ [] → (∀ x, x ∈ l → 0 ≤ x) → max_of l ∈ l)
  ∧ (l = [] → max_of l = -1).
Proof.
  unfold max_of. destruct (max_of_from l (-1)) as (Hle & Hm & Hin).
  split; [done|]. split; [|by intros ->].
  intros Hne Hpos. destruct Hin as [E|Hin]; [|done].
  destruct l as [|x l]; [done|]. exfalso.
  assert (x ≤ foldl Z.max (-1) (x :: l)) by (apply Hle; left).
  assert (0 ≤ x) by (apply Hpos; left). lia.
Qed.

(** ** The loop over the lines *)

Lemma headers_cons line lines :
  headers (line :: lines)
  = match header_of line with
    | Some n => n :: headers lines
    | None => headers lines
    end.
Proof. unfold headers. simpl. by destruct (header_of line). Qed.

Lemma headers_app l1 l2 : headers (l1 ++ l2) = headers l1 ++ headers l2.
Proof. apply omap_app. Qed.

Lemma entries_app l1 l2 : entries (l1 ++ l2) = entries l1 ++ entries l2.
Proof. apply omap_app. Qed.

Lemma headers_nonneg lines : ∀ n, n ∈ headers lines → 0 ≤ n.
Proof.
  intros n (line & _ & H)%list_elem_of_omap. unfold header_of in H.
  destruct (classify line) as [m| |] eqn:E; try done.
  injection H as ->. by eapply classify_header.
Qed.

Lemma run_cons st l ls : run st (l :: ls) = run (apply_kind st (classify l)) ls.
Proof. done. Qed.

Lemma run_app st l1 l2 : run st (l1 ++ l2) = run (run st l1) l2.
Proof. apply foldl_app. Qed.

Lemma run_keys lines : ∀ st,
  keys (data (run st lines))
  = foldl first_seen_add (keys (data st)) (decimal <$> headers lines).
Proof.
  induction lines as [|l ls IH]; intros st; [done|].
  rewrite run_cons, IH, headers_cons. unfold header_of.
  destruct (classify l) as [n|it|]; simpl; [|
    destruct (current_state st); simpl; [|done]|done].
  - by rewrite keys_setdefault.
  - by rewrite keys_add_entry.
Qed.

Lemma run_max lines : ∀ st,
  max_state_seen (run st lines) = foldl Z.max (max_state_seen st) (headers lines).
Proof.
  induction lines as [|l ls IH]; intros st; [done|].
  rewrite run_cons, IH, headers_cons. unfold header_of.
  destruct (classify l) as [n|it|]; simpl; [done| |done].
  by destruct (current_state st).
Qed.

Lemma run_current lines : ∀ st,
  current_state (run st lines) = foldl next_state (current_state st) lines.
Proof.
  induction lines as [|l ls IH]; intros st; [done|].
  rewrite run_cons, IH. simpl. f_equal. unfold next_state, header_of.
  destruct (classify l) as [n|it|]; simpl; [done| |done].
  by destruct (current_state st) eqn:E.
Qed.

(** The list of a state after the loop: what it had, then the records of
    the item lines under it, in their order. *)
Lemma run_getitem n lines : ∀ st,
  ready st →
  getitem (decimal n) (data (run st lines))
  = match getitem (decimal n) (data st) with
    | Some v => Some (v ++ entries_under n (current_state st) lines)
    | None => if decide (n ∈ headers lines)
              then Some (entries_under n (current_state st) lines)
              else None
    end.
Proof.
  induction lines as [|l ls IH]; intros st Hr.
  { cbn [run foldl entries_under]. destruct (getitem _ _); [by rewrite app_nil_r|].
    rewrite decide_False; [done|]. apply not_elem_of_nil. }
  rewrite run_cons, IH by (by apply apply_kind_ready).
  rewrite headers_cons. simpl entries_under.
  unfold next_state, entry_of, header_of.
  destruct (classify l) as [m|it|] eqn:Hk; simpl.
  - rewrite getitem_setdefault.
    destruct (getitem (decimal n) (data st)) as [v|] eqn:Hg; [done|].
    destruct (decide (decimal m = decimal n)) as [E|E].
    + apply (inj decimal) in E. subst m.
      rewrite decide_True by left. done.
    + assert (m ≠ n) by congruence.
      destruct (decide (n ∈ headers ls)).
      * rewrite decide_True by (by right). done.
      * rewrite decide_False; [done|]. rewrite not_elem_of_cons. split; done.
  - destruct (current_state st) as [cs|] eqn:Hc; simpl.
    + rewrite getitem_add_entry.
      destruct (decide (decimal cs = decimal n)) as [E|E].
      * apply (inj decimal) in E. subst cs.
        destruct (Hr n Hc) as [v ->]. simpl.
        rewrite decide_True by done. by rewrite <- app_assoc.
      * rewrite (decide_False (P := Some cs = Some n)) by congruence. done.
    + by rewrite Hc.
  - done.
Qed.

Lemma entries_under_app n l1 : ∀ cur l2,
  entries_under n cur (l1 ++ l2)
  = entries_under n cur l1 ++ entries_under n (foldl next_state cur l1) l2.
Proof.
  induction l1 as [|l ls IH]; intros cur l2; [done|].
  cbn [app entries_under foldl]. unfold entry_of, next_state, header_of.
  destruct (classify l) as [m|it|]; rewrite ?IH; [done| |done].
  by case_decide.
Qed.

(** Without a header line the current state stays, and under the current
    state every item line counts. *)
Lemma entries_under_segment n seg :
  headers seg = [] →
  entries_under n (Some n) seg = entries seg
  ∧ ∀ cur, foldl next_state cur seg = cur.
Proof.
  induction seg as [|l ls IH]; [done|].
  rewrite headers_cons. unfold entries. simpl.
  unfold next_state, header_of, entry_of.
  destruct (classify l) as [m|it|]; simpl; [done|..]; intros H;
    destruct (IH H) as [E1 E2].
  - rewrite decide_True by done. split; [by f_equal|done].
  - done.
Qed.

(** Before any header nothing is recorded. *)
Lemma run_no_header pre st :
  headers pre = [] → current_state st = None → run st pre = st.
Proof.
  induction pre as [|l ls IH]; [done|].
  rewrite headers_cons, run_cons. unfold header_of.
  destruct (classify l) as [m|it|]; simpl; [done|..]; intros H Hc.
  - rewrite Hc. auto.
  - auto.
Qed.

Lemma entries_under_no_header n pre : headers pre = [] → entries_under n None pre = [].
Proof.
  induction pre as [|l ls IH]; [done|].
  rewrite headers_cons. simpl. unfold next_state, header_of, entry_of.
  destruct (classify l) as [m|it|]; simpl; [done|..]; auto.
Qed.

(** ** The gap filling *)

Lemma fill_keys l : ∀ d,
  keys (foldl (λ d s, setdefault (decimal s) [] d) d l)
  = foldl first_seen_add (keys d) (decimal <$> l).
Proof.
  induction l as [|s l IH]; intros d; simpl; [done|].
  by rewrite IH, keys_setdefault.
Qed.

Lemma fill_getitem_Some k v l : ∀ d,
  getitem k d = Some v →
  getitem k (foldl (λ d s, setdefault (decimal s) [] d) d l) = Some v.
Proof.
  induction l as [|s l IH]; intros d Hd; simpl; [done|].
  apply IH. by rewrite getitem_setdefault, Hd.
Qed.

Lemma run_init_keys lines :
  keys (data (run scan_init lines)) = decimal <$> first_seen (headers lines).
Proof.
  rewrite run_keys. unfold first_seen.
  by rewrite <- (first_seen_from_fmap decimal).
Qed.

Lemma run_init_max lines :
  max_state_seen (run scan_init lines) = max_of (headers lines).
Proof. by rewrite run_max. Qed.

Lemma fill_init_keys lines :
  keys (filled (run scan_init lines))
  = decimal <$> foldl first_seen_add (first_seen (headers lines))
                         (range (max_of (headers lines) + 1)).
Proof.
  unfold filled.
  by rewrite fill_keys, run_init_keys, run_init_max,
    (first_seen_from_fmap decimal).
Qed.

Lemma run_init_getitem n lines :
  n ∈ headers lines →
  getitem (decimal n) (data (run scan_init lines))
  = Some (entries_under n None lines).
Proof.
  intros Hn. rewrite run_getitem by apply ready_init. simpl.
  by rewrite decide_True.
Qed.

Lemma table_getitem n lines b :
  n ∈ headers lines →
  getitem (decimal n) (table lines b) = Some (entries_under n None lines).
Proof.
  intros Hn. unfold table.
  destruct b; [|by apply run_init_getitem].
  apply fill_getitem_Some. by apply run_init_getitem.
Qed.

(** ** Segments, keys and headers *)

Lemma header_not_entry h n : header_of h = Some n → entry_of h = None.
Proof. unfold header_of, entry_of. by destruct (classify h). Qed.

Lemma setdefault_present k v d : is_Some (getitem k d) → setdefault k v d = d.
Proof. intros [x Hx]. unfold setdefault. by rewrite Hx. Qed.

(** C1.  The item lines between a header of state [n] and the next header
    (or the end of the text) are recorded under [n], one record per line
    and in the order of the lines: in the table that [convert] returns, the
    list of [n] is what the earlier lines gave it, then the records of these
    lines, then what the later lines give it. *)
Theorem segment_items_in_order (txt : str) (b : bool) (d : dict)
    (pre : list str) (h : str) (seg post : list str) (n : Z) :
  convert txt b = Some d →
  splitlines txt = pre ++ h :: seg ++ post →
  header_of h = Some n →
  headers seg = [] →
  getitem (decimal n) d
  = Some (entries_under n None pre ++ entries seg
          ++ entries_under n (Some n) post).
Proof.
  intros Hd Hl Hh Hseg. apply convert_lines_table in Hd as ->.
  rewrite Hl, table_getitem.
  2:{ rewrite headers_app, headers_cons, Hh. apply elem_of_app. right. left. }
  f_equal. rewrite entries_under_app. f_equal.
  cbn [entries_under]. rewrite (header_not_entry h n Hh).
  unfold next_state at 1. rewrite Hh.
  rewrite entries_under_app.
  destruct (entries_under_segment n seg Hseg) as [-> ->]. done.
Qed.

Lemma segment_items_in_order_witness :
  getitem (decimal 0) scenario_filled
  = Some (entries_under 0 None []
          ++ entries [py "[T, ID, T, =, NT, Expr]: 5"]
          ++ entries_under 0 (Some 0) [py "State 2"]).
Proof.
  apply (segment_items_in_order scenario true scenario_filled [] (py "State 0")
           [py "[T, ID, T, =, NT, Expr]: 5"] [py "State 2"] 0);
    vm_compute; reflexivity.
Defined.

(** C5.  Without gap filling the keys of the table that [convert] returns
    are the names of the states that have a header line, each once, in the
    order of their first header. *)
Theorem keys_without_gap_filling (txt : str) (d : dict) :
  convert txt false = Some d →
  keys d = decimal <$> first_seen (headers (splitlines txt))
  ∧ NoDup (keys d)
  ∧ ∀ k, k ∈ keys d ↔ ∃ n, n ∈ headers (splitlines txt) ∧ k = decimal n.
Proof.
  intros Hd. apply convert_lines_table in Hd as ->. unfold table.
  rewrite run_init_keys. split; [done|]. split.
  - apply (NoDup_fmap_2 decimal), NoDup_first_seen.
  - intros k. rewrite list_elem_of_fmap. split.
    + intros (n & -> & Hn). exists n. by rewrite elem_of_first_seen in Hn.
    + intros (n & Hn & ->). exists n. by rewrite elem_of_first_seen.
Qed.

Lemma keys_without_gap_filling_witness :
  keys scenario_unfilled = decimal <$> first_seen (headers (splitlines scenario))
  ∧ NoDup (keys scenario_unfilled)
  ∧ ∀ k, k ∈ keys scenario_unfilled
         ↔ ∃ n, n ∈ headers (splitlines scenario) ∧ k = decimal n.
Proof.
  apply (keys_without_gap_filling scenario scenario_unfilled).
  vm_compute. reflexivity.
Defined.

(** C2.  With gap filling the keys of the table that [convert] returns are
    exactly the names of 0, 1, ..., maxState, each once, where maxState is
    the largest state number of a header line; without any header line the
    table is empty. *)
Theorem keys_with_gap_filling (txt : str) (d : dict) :
  convert txt true = Some d →
  NoDup (keys d)
  ∧ (∀ k, k ∈ keys d
          ↔ ∃ n, 0 ≤ n ≤ max_of (headers (splitlines txt)) ∧ k = decimal n)
  ∧ (∀ h, h ∈ headers (splitlines txt) → h ≤ max_of (headers (splitlines txt)))
  ∧ (headers (splitlines txt) ≠ []
     → max_of (headers (splitlines txt)) ∈ headers (splitlines txt))
  ∧ (headers (splitlines txt) = [] → d = []).
Proof.
  intros Hd. apply convert_lines_table in Hd as ->. unfold table.
  set (hs := headers (splitlines txt)).
  destruct (max_of_spec hs) as (Hle & Hin & Hnil).
  rewrite fill_init_keys. fold hs. repeat split.
  - apply (NoDup_fmap_2 decimal), NoDup_first_seen_from, NoDup_first_seen.
  - intros (n & -> & Hn)%list_elem_of_fmap. exists n. split; [|done].
    apply elem_of_first_seen_from in Hn as [Hn|Hn].
    + rewrite elem_of_first_seen in Hn. split; [|by apply Hle].
      by apply (headers_nonneg (splitlines txt)).
    + apply elem_of_seqZ in Hn. lia.
  - intros (n & Hn & ->). apply list_elem_of_fmap_2.
    apply elem_of_first_seen_from. right. apply elem_of_seqZ. lia.
  - done.
  - intros Hne. apply Hin; [done|]. apply headers_nonneg.
  - intros Hhs. unfold filled.
    rewrite run_init_max, (run_no_header _ _ Hhs) by done.
    fold hs. rewrite Hhs. done.
Qed.

Lemma keys_with_gap_filling_witness :
  NoDup (keys scenario_filled)
  ∧ (∀ k, k ∈ keys scenario_filled
          ↔ ∃ n, 0 ≤ n ≤ max_of (headers (splitlines scenario)) ∧ k = decimal n)
  ∧ (∀ h, h ∈ headers (splitlines scenario)
          → h ≤ max_of (headers (splitlines scenario)))
  ∧ (headers (splitlines scenario) ≠ []
     → max_of (headers (splitlines scenario)) ∈ headers (splitlines scenario))
  ∧ (headers (splitlines scenario) = [] → scenario_filled = []).
Proof.
  apply (keys_with_gap_filling scenario scenario_filled).
  vm_compute. reflexivity.
Defined.

(** The lines before the first line that [STATE_RE] accepts change nothing
    and raise nothing. *)
Lemma scan_lines_no_state pre st :
  current_state st = None →
  Forall (λ line, re_match STATE_RE line = None) pre →
  scan_lines st pre = Some st.
Proof.
  intros Ec Hpre. induction Hpre as [|l ls Hl Hls IH]; simpl; [done|].
  by rewrite step_no_state.
Qed.

Lemma convert_lines_no_state pre rest b :
  Forall (λ line, re_match STATE_RE line = None) pre →
  convert_lines (pre ++ rest) b = convert_lines rest b.
Proof.
  intros Hpre. unfold convert_lines.
  by rewrite scan_lines_app, (scan_lines_no_state pre scan_init eq_refl Hpre).
Qed.

(** C7.  The lines before the first header line leave no trace: the loop
    raises nothing on them, whatever they are, and leaves its variables as
    they were; [convert] does on the text what it does on the text without
    these lines, for either flag. *)
Theorem items_before_first_header_dropped (txt : str) (b : bool)
    (pre rest : list str) :
  splitlines txt = pre ++ rest →
  Forall (λ line, re_match STATE_RE line = None) pre →
  scan_lines scan_init pre = Some scan_init
  ∧ convert txt b = convert_lines rest b.
Proof.
  intros Hl Hpre. split; [by apply scan_lines_no_state|].
  unfold convert. rewrite Hl. by apply convert_lines_no_state.
Qed.

Lemma items_before_first_header_dropped_witness :
  scan_lines scan_init [py "[a]: 1"; py "[b, T]: 2"] = Some scan_init
  ∧ convert (py "[a]: 1" ++ [LF] ++ py "[b, T]: 2" ++ [LF] ++ scenario) true
    = convert_lines (splitlines scenario) true.
Proof.
  apply (items_before_first_header_dropped
           (py "[a]: 1" ++ [LF] ++ py "[b, T]: 2" ++ [LF] ++ scenario) true
           [py "[a]: 1"; py "[b, T]: 2"] (splitlines scenario)).
  - vm_compute; reflexivity.
  - apply (bool_decide_unpack _). vm_compute. exact I.
Defined.

(** C9.  A header line of a state [n] that already had one changes nothing
    in the table: the list of [n] is kept, and so is the place of [n] among
    the keys.  In the table that [convert] returns the records of all the
    segments of [n] are in one list, in the order of the lines. *)
Theorem repeated_header_accumulates (txt : str) (b : bool) (d : dict)
    (pre : list str) (h : str) (post : list str) (n : Z) :
  convert txt b = Some d →
  splitlines txt = pre ++ h :: post →
  header_of h = Some n →
  n ∈ headers pre →
  (∃ st, scan_lines scan_init pre = Some st
         ∧ step st h = Some (Scan (data st) (Some n) (max_state_seen st)))
  ∧ getitem (decimal n) d
    = Some (entries_under n None pre ++ entries_under n (Some n) post)
  ∧ ∃ more, keys d = (decimal <$> first_seen (headers pre)) ++ more.
Proof.
  intros Hd Hl Hh Hn. split; [|split].
  - unfold convert, convert_lines in Hd. rewrite Hl, scan_lines_app in Hd.
    destruct (scan_lines scan_init pre) as [st|] eqn:Epre; [|done].
    exists st. split; [done|]. simpl in Hd.
    destruct (step st h) as [st1|] eqn:Eh; [|done]. f_equal.
    apply scan_lines_run in Epre as ->; [|apply ready_init].
    apply step_apply in Eh as ->; [|apply run_ready, ready_init].
    unfold header_of in Hh. destruct (classify h) as [m| |]; try done.
    injection Hh as ->. simpl.
    rewrite setdefault_present.
    2:{ rewrite run_init_getitem by done. by eexists. }
    f_equal. rewrite run_init_max.
    destruct (max_of_spec (headers pre)) as (Hle & _). specialize (Hle n Hn). lia.
  - apply convert_lines_table in Hd as ->. rewrite Hl, table_getitem.
    2:{ rewrite headers_app. apply elem_of_app. by left. }
    f_equal. rewrite entries_under_app. f_equal.
    cbn [entries_under]. rewrite (header_not_entry h n Hh).
    unfold next_state. by rewrite Hh.
  - apply convert_lines_table in Hd as ->. rewrite Hl. unfold table.
    assert (∃ more, keys (data (run scan_init (pre ++ h :: post)))
                    = (decimal <$> first_seen (headers pre)) ++ more)
      as [more Hm].
    { rewrite run_app, run_keys, run_init_keys. apply first_seen_from_prefix. }
    destruct b; [|by exists more].
    unfold filled. rewrite fill_keys, Hm.
    destruct (first_seen_from_prefix
                (decimal <$> range (max_state_seen
                   (run scan_init (pre ++ h :: post)) + 1))
                ((decimal <$> first_seen (headers pre)) ++ more))
      as [more' ->].
    exists (more ++ more'). by rewrite app_assoc.
Qed.

Lemma repeated_header_accumulates_witness :
  (∃ st, scan_lines scan_init [py "State 1"; py "[a]: 1"; py "State 0"; py "[b]: 2"]
         = Some st
         ∧ step st (py "State 1") = Some (Scan (data st) (Some 1) (max_state_seen st)))
  ∧ getitem (decimal 1) [(py "1", [Item (py "[a]") 1; Item (py "[c]") 3]);
                         (py "0", [Item (py "[b]") 2])]
    = Some (entries_under 1 None [py "State 1"; py "[a]: 1"; py "State 0"; py "[b]: 2"]
            ++ entries_under 1 (Some 1) [py "[c]: 3"])
  ∧ ∃ more, keys [(py "1", [Item (py "[a]") 1; Item (py "[c]") 3]);
                  (py "0", [Item (py "[b]") 2])]
      = (decimal <$> first_seen
           (headers [py "State 1"; py "[a]: 1"; py "State 0"; py "[b]: 2"]))
        ++ more.
Proof.
  apply (repeated_header_accumulates
           (py "State 1" ++ [LF] ++ py "[a]: 1" ++ [LF] ++ py "State 0" ++ [LF]
            ++ py "[b]: 2" ++ [LF] ++ py "State 1" ++ [LF] ++ py "[c]: 3")
           false _
           [py "State 1"; py "[a]: 1"; py "State 0"; py "[b]: 2"]
           (py "State 1") [py "[c]: 3"] 1).
  - vm_compute; reflexivity.
  - vm_compute; reflexivity.
  - vm_compute; reflexivity.
  - apply list_elem_of_In. vm_compute. left. reflexivity.
Defined.

Example repeated_header_example :
  convert (py "State 1" ++ [LF] ++ py "[a]: 1" ++ [LF] ++ py "State 0" ++ [LF]
           ++ py "[b]: 2" ++ [LF] ++ py "State 1" ++ [LF] ++ py "[c]: 3") false
  = Some [(py "1", [Item (py "[a]") 1; Item (py "[c]") 3]);
          (py "0", [Item (py "[b]") 2])].
Proof. vm_compute. reflexivity. Qed.

(** ** The order of the names with gap filling *)

Lemma ascending_sorted l : ascending l → StronglySorted Z.lt l.
Proof.
  intros H. apply Sorted_StronglySorted; [apply _|].
  induction l as [|x l IH]; [constructor|]. constructor.
  - apply IH. destruct l as [|y l]; [done|]. simpl in H. tauto.
  - destruct l as [|y l]; constructor. simpl in H. tauto.
Qed.

Lemma ascending_seqZ_nat k : ∀ m, ascending (seqZ m (Z.of_nat k)).
Proof.
  induction k as [|k IH]; intros m; [done|].
  rewrite seqZ_cons by lia.
  replace (Z.pred (Z.of_nat (S k))) with (Z.of_nat k) by lia.
  specialize (IH (Z.succ m)). destruct k as [|k]; [done|].
  rewrite seqZ_cons in * by lia. simpl. split; [lia|done].
Qed.

Lemma ascending_range n : ascending (range n).
Proof.
  unfold range. destruct (decide (0 ≤ n)) as [Hn|Hn].
  - rewrite <- (Z2Nat.id n) by done. apply ascending_seqZ_nat.
  - unfold seqZ. replace (Z.to_nat n) with 0%nat by lia. done.
Qed.

(** The states with a header come first, the missing ones after them. *)
Lemma first_seen_then_missing hs n :
  foldl first_seen_add (first_seen hs) (range n)
  = first_seen hs ++ filter (.∉ hs) (range n).
Proof.
  rewrite first_seen_from_NoDup by apply NoDup_seqZ. f_equal.
  apply filter_fresh. intros x _. by rewrite elem_of_first_seen.
Qed.

Lemma ascending_population hs :
  (∀ h, h ∈ hs → 0 ≤ h) →
  ascending (first_seen hs ++ filter (.∉ hs) (range (max_of hs + 1)))
  ↔ first_seen hs = range (max_of hs + 1).
Proof.
  intros Hpos. destruct (max_of_spec hs) as (Hle & Hin & Hnil). split.
  - intros Hasc%ascending_sorted.
    destruct (decide (hs = [])) as [->|Hne]; [done|].
    specialize (Hin Hne Hpos).
    assert (filter (.∉ hs) (range (max_of hs + 1)) = []) as Hmiss.
    { destruct (filter _ _) as [|x l] eqn:E; [done|]. exfalso.
      assert (x ∈ filter (.∉ hs) (range (max_of hs + 1))) as Hx
        by (rewrite E; left).
      apply list_elem_of_filter in Hx as [Hx1 Hx2].
      apply elem_of_seqZ in Hx2.
      assert (max_of hs < x); [|assert (x ≠ max_of hs) by congruence; lia].
      apply (StronglySorted_app_1_elem_of _ _ _ _ _ Hasc);
        [by apply elem_of_first_seen|left]. }
    rewrite Hmiss, app_nil_r in Hasc.
    apply (StronglySorted_unique_strong Z.lt); [intros; lia|done| |].
    { apply ascending_sorted, ascending_range. }
    apply NoDup_Permutation; [apply NoDup_first_seen|apply NoDup_seqZ|].
    intros x. rewrite elem_of_first_seen. unfold range. rewrite elem_of_seqZ.
    split.
    + intros Hx. specialize (Hle x Hx). specialize (Hpos x Hx). lia.
    + intros Hx. destruct (decide (x ∈ hs)) as [|Hn]; [done|]. exfalso.
      assert (x ∈ filter (.∉ hs) (range (max_of hs + 1))) as Hx'.
      { apply list_elem_of_filter. split; [done|]. apply elem_of_seqZ. lia. }
      rewrite Hmiss in Hx'. by apply elem_of_nil in Hx'.
  - intros E.
    assert (filter (.∉ hs) (range (max_of hs + 1)) = []) as ->.
    { destruct (filter _ _) as [|x l] eqn:E'; [done|]. exfalso.
      assert (x ∈ filter (.∉ hs) (range (max_of hs + 1))) as Hx
        by (rewrite E'; left).
      apply list_elem_of_filter in Hx as [Hx1 Hx2].
      rewrite <- E, elem_of_first_seen in Hx2. done. }
    rewrite app_nil_r, E. apply ascending_range.
Qed.

(** C6, as the program has it.  With gap filling the keys of the table come
    in the order in which the table was filled: the states that have a
    header, in the order of their first header, then the other numbers of
    0..maxState in increasing order.  The names increase exactly when the
    first headers of the states come in the order 0, 1, ..., maxState. *)
Theorem names_in_population_order (txt : str) (d : dict) :
  convert txt true = Some d →
  keys d = decimal <$>
             (first_seen (headers (splitlines txt))
              ++ filter (.∉ headers (splitlines txt))
                   (range (max_of (headers (splitlines txt)) + 1)))
  ∧ (names_ascending d
     ↔ first_seen (headers (splitlines txt))
       = range (max_of (headers (splitlines txt)) + 1)).
Proof.
  intros Hd. apply convert_lines_table in Hd as ->. unfold table.
  rewrite fill_init_keys, first_seen_then_missing. split; [done|].
  rewrite <- ascending_population by apply headers_nonneg.
  unfold names_ascending. rewrite fill_init_keys, first_seen_then_missing.
  split.
  - intros (ns & E & Hns). apply (inj (fmap decimal)) in E. by rewrite E.
  - intros H. by eexists.
Qed.

Lemma names_in_population_order_witness :
  keys scenario_filled
  = decimal <$>
      (first_seen (headers (splitlines scenario))
       ++ filter (.∉ headers (splitlines scenario))
            (range (max_of (headers (splitlines scenario)) + 1)))
  ∧ (names_ascending scenario_filled
     ↔ first_seen (headers (splitlines scenario))
       = range (max_of (headers (splitlines scenario)) + 1)).
Proof.
  apply (names_in_population_order scenario scenario_filled).
  vm_compute. reflexivity.
Defined.

(** C6 fails as stated: on the text of the two scenarios of the
    specification (a header of state 0, an item line, a header of state 2)
    the names come out as 0, 2, 1. *)
Lemma gap_filled_names_not_ascending :
  ∃ d, convert scenario true = Some d
       ∧ keys d = [py "0"; py "2"; py "1"]
       ∧ ¬ names_ascending d.
Proof.
  eexists. split; [vm_compute; reflexivity|]. split; [reflexivity|].
  intros (ns & E & Hns).
  change (keys _) with (decimal <$> [0; 2; 1]) in E.
  apply (inj (fmap decimal)) in E. subst ns. simpl in Hns. lia.
Qed.

(** Headers out of numeric order stay out of order too. *)
Example gap_filled_names_out_of_order :
  convert (py "State 1" ++ [LF] ++ py "State 0") true
  = Some [(py "1", []); (py "0", [])].
Proof. vm_compute. reflexivity. Qed.

(** ** Trimming, splitting and joining *)

Lemma lstrip_blank_app w s : blank w → lstrip (w ++ s) = lstrip s.
Proof. induction 1 as [|c w Hc _ IH]; simpl; [done|]. by rewrite Hc. Qed.

Lemma lstrip_blank w : blank w → lstrip w = [].
Proof. induction 1 as [|c w Hc _ IH]; simpl; [done|]. by rewrite Hc. Qed.

Lemma lstrip_stops s : stops is_space s → lstrip s = s.
Proof. destruct s as [|c s]; simpl; [done|]. by intros ->. Qed.

Lemma lstrip_spec s :
  ∃ l, s = l ++ lstrip s ∧ blank l ∧ stops is_space (lstrip s).
Proof.
  induction s as [|c s (l & E & Hl & Hs)]; simpl.
  - exists []. split; [done|]. split; [constructor|done].
  - destruct (is_space c) eqn:Hc.
    + exists (c :: l). split; [by rewrite E at 1|]. split; [by constructor|done].
    + exists []. split; [done|]. split; [constructor|done].
Qed.

Lemma blank_rev w : blank w → blank (rev w).
Proof. unfold blank. rewrite !Forall_forall. intros H c Hc. apply H.
  by apply list_elem_of_In, in_rev, list_elem_of_In. Qed.

Lemma rstrip_spec s :
  ∃ r, s = rstrip s ++ r ∧ blank r ∧ stops is_space (rev (rstrip s)).
Proof.
  unfold rstrip. destruct (lstrip_spec (rev s)) as (l & E & Hl & Hs).
  exists (rev l). split; [|split].
  - rewrite <- rev_app_distr, <- E. by rewrite rev_involutive.
  - by apply blank_rev.
  - by rewrite rev_involutive.
Qed.

(** [strip] takes blanks off both ends, and nothing else. *)
Lemma strip_spec s :
  ∃ l r, s = l ++ strip s ++ r ∧ blank l ∧ blank r
         ∧ stops is_space (strip s) ∧ stops is_space (rev (strip s)).
Proof.
  unfold strip. destruct (lstrip_spec s) as (l & E & Hl & Hs).
  destruct (rstrip_spec (lstrip s)) as (r & E' & Hr & Hs').
  exists l, r. split; [by rewrite <- E'|]. repeat split; try done.
  rewrite E' in Hs. destruct (rstrip (lstrip s)); [done|]. done.
Qed.

(** What is between the blanks of both ends is what [strip] gives. *)
Lemma strip_unique l m r :
  blank l → blank r → stops is_space m → stops is_space (rev m) →
  strip (l ++ m ++ r) = m.
Proof.
  intros Hl Hr Hm Hm'. unfold strip, rstrip. rewrite lstrip_blank_app by done.
  destruct m as [|c m].
  - simpl. by rewrite (lstrip_blank r).
  - rewrite (lstrip_stops ((c :: m) ++ r)) by done. rewrite rev_app_distr.
    rewrite lstrip_blank_app by (by apply blank_rev).
    rewrite lstrip_stops by done. apply rev_involutive.
Qed.

Lemma strip_strip s : strip (strip s) = strip s.
Proof.
  destruct (strip_spec s) as (l & r & _ & _ & _ & H1 & H2).
  assert (blank []) as Hnil by constructor.
  pose proof (strip_unique [] (strip s) [] Hnil Hnil H1 H2) as E.
  simpl in E. by rewrite app_nil_r in E.
Qed.

Lemma strip_blank_l w s : blank w → strip (w ++ s) = strip s.
Proof. intros H. unfold strip. by rewrite lstrip_blank_app. Qed.

Lemma strip_digits w ds w' : blank w → digits ds → blank w' → strip (w ++ ds ++ w') = ds.
Proof.
  intros Hw Hd Hw'. apply strip_unique; try done.
  - rewrite <- (app_nil_r ds). by apply stops_space_digits.
  - rewrite <- (app_nil_r (rev ds)). apply stops_space_digits.
    destruct Hd as [Hne Hd]. split.
    + intros E. apply Hne. by rewrite <- (rev_involutive ds), E.
    + rewrite Forall_forall in *. intros c Hc. apply Hd.
      by apply list_elem_of_In, in_rev, list_elem_of_In.
Qed.

Lemma split_nonempty sep s : split sep s ≠ [].
Proof.
  induction s as [|c s IH]; simpl; [done|].
  case_bool_decide; [done|]. by destruct (split sep s).
Qed.

Lemma split_no_sep sep p : sep ∉ p → split sep p = [p].
Proof.
  induction p as [|c p IH]; simpl; [done|].
  intros [Hc Hp]%not_elem_of_cons. rewrite bool_decide_eq_false_2 by done.
  by rewrite IH.
Qed.

Lemma split_app_sep sep p s :
  sep ∉ p → split sep (p ++ sep :: s) = p :: split sep s.
Proof.
  induction p as [|c p IH]; simpl.
  - intros _. by rewrite bool_decide_eq_true_2.
  - intros [Hc Hp]%not_elem_of_cons. rewrite bool_decide_eq_false_2 by done.
    by rewrite IH.
Qed.

(** [split] gives the pieces between the separators: joining them with the
    separator gives the string back, and no piece holds a separator. *)
Lemma join_split sep s :
  join [sep] (split sep s) = s ∧ Forall (λ p, sep ∉ p) (split sep s).
Proof.
  induction s as [|c s [IH1 IH2]]; simpl.
  - split; [done|]. repeat constructor. apply not_elem_of_nil.
  - case_bool_decide as Hc.
    + subst c. split.
      * destruct (split sep s) eqn:E; [by apply split_nonempty in E|].
        simpl in *. by rewrite IH1.
      * constructor; [apply not_elem_of_nil|done].
    + destruct (split sep s) as [|p ps] eqn:E; [by apply split_nonempty in E|].
      apply Forall_cons in IH2 as [Hp Hps]. split.
      * destruct ps; simpl in *; by rewrite <- IH1.
      * constructor; [|done]. apply not_elem_of_cons. split; [congruence|done].
Qed.

(** The pieces are determined by that. *)
Lemma split_join sep ps :
  ps ≠ [] → Forall (λ p, sep ∉ p) ps → split sep (join [sep] ps) = ps.
Proof.
  induction ps as [|p ps IH]; [done|]. intros _ [Hp Hps]%Forall_cons.
  destruct ps as [|q ps]; simpl.
  - by apply split_no_sep.
  - rewrite split_app_sep by done. f_equal. by apply IH.
Qed.

(** No line of [splitlines] holds a line boundary. *)
Lemma splitlines_from_no_break s : ∀ cur after_cr,
  Forall (λ c, is_linebreak c = false) cur →
  Forall (Forall (λ c, is_linebreak c = false)) (splitlines_from cur after_cr s).
Proof.
  induction s as [|c s IH]; intros cur after_cr Hcur; simpl.
  - destruct cur; [constructor|]. repeat constructor.
    apply Forall_forall. intros x Hx. rewrite Forall_forall in Hcur.
    by apply Hcur, list_elem_of_In, in_rev, list_elem_of_In.
  - destruct (after_cr && bool_decide (c = LF)); [by apply IH|].
    destruct (is_linebreak c) eqn:Hc.
    + constructor; [|apply IH; constructor].
      apply Forall_forall. intros x Hx. rewrite Forall_forall in Hcur.
      by apply Hcur, list_elem_of_In, in_rev, list_elem_of_In.
    + apply IH. by constructor.
Qed.

Lemma splitlines_no_lf txt line : line ∈ splitlines txt → LF ∉ line.
Proof.
  intros Hl. assert (Forall (λ c, is_linebreak c = false) line) as H.
  { pose proof (splitlines_from_no_break txt [] false (Forall_nil_2 _)) as H.
    rewrite Forall_forall in H. by apply H. }
  apply (class_not_elem (λ c, negb (is_linebreak c))); [|done].
  eapply Forall_impl; [done|]. by intros c ->.
Qed.

(** ** Item lines *)

Lemma header_no_colon line ds : header_shape line ds → ":"%char ∉ line.
Proof.
  intros (w1 & w2 & w3 & -> & B1 & B2 & _ & [_ D] & B3).
  change (py "State") with ["S"; "t"; "a"; "t"; "e"]%char.
  rewrite !not_elem_of_app, !not_elem_of_cons.
  repeat split;
    try (by apply (class_not_elem is_space));
    try (by apply (class_not_elem is_digit)); try done.
Qed.

Lemma item_has_colon line inner ds : item_shape line inner ds → ":"%char ∈ line.
Proof.
  intros (w1 & w2 & w3 & w4 & -> & _).
  change (py ":") with [":"%char].
  rewrite !elem_of_app, !elem_of_cons. tauto.
Qed.

(** The two patterns never accept the same line. *)
Lemma item_not_header line inner ds :
  item_shape line inner ds → re_match STATE_RE line = None.
Proof.
  intros Hi. destruct (re_match STATE_RE line) as [g|] eqn:E; [|done].
  destruct (state_re_shape _ _ E) as (ds' & _ & Hh).
  by destruct (header_no_colon _ _ Hh (item_has_colon _ _ _ Hi)).
Qed.

Lemma classify_item line inner ds :
  item_shape line inner ds → Z.of_nat (length ds) ≤ MAX_STR_DIGITS →
  ∃ v, int_of_str ds = Some v ∧ 0 ≤ v
       ∧ classify line = Entry (Item (normalize_key inner) v).
Proof.
  intros Hi Hlen. unfold classify.
  rewrite (item_not_header _ _ _ Hi), (item_re_match _ _ _ Hi).
  destruct Hi as (?&?&?&?&_&_&_&_&_&D&_).
  destruct (int_of_digits _ D Hlen) as (v & Hv & Hpos).
  exists v. simpl. by rewrite Hv.
Qed.

(** C10.  The inner text of an item line runs to the last closing bracket
    of the line: whatever the text between the first opening bracket and
    that bracket is, closing brackets included, it is the captured key, and
    the line is an item line: the loop records the key with the value of the
    digits, when these are not more than [int] reads. *)
Theorem item_inner_is_greedy (w1 inner w2 w3 ds w4 : str) :
  blank w1 → LF ∉ inner → blank w2 → blank w3 → digits ds → blank w4 →
  let tail := w2 ++ py ":" ++ w3 ++ ds ++ w4 in
  let line := w1 ++ py "[" ++ inner ++ py "]" ++ tail in
  ("]"%char ∉ tail)
  ∧ re_match STATE_RE line = None
  ∧ re_match ITEM_RE line = Some [inner; ds]
  ∧ (Z.of_nat (length ds) ≤ MAX_STR_DIGITS →
     ∃ v, int_of_str ds = Some v
          ∧ classify line = Entry (Item (normalize_key inner) v)).
Proof.
  intros B1 L B2 B3 D B4 tail line.
  assert (item_shape line inner ds) as Hi.
  { exists w1, w2, w3, w4. done. }
  split; [by apply item_tail_no_bracket|].
  split; [by eapply item_not_header|].
  split; [by apply item_re_match|].
  intros Hlen.
  destruct (classify_item _ _ _ Hi Hlen) as (v & Hv & _ & Hc). by exists v.
Qed.

Lemma item_inner_is_greedy_witness :
  ("]"%char ∉ [] ++ py ":" ++ py " " ++ py "5" ++ [])
  ∧ re_match STATE_RE ([] ++ py "[" ++ py "a], [b" ++ py "]" ++ [] ++ py ":" ++ py " " ++ py "5" ++ []) = None
  ∧ re_match ITEM_RE ([] ++ py "[" ++ py "a], [b" ++ py "]" ++ [] ++ py ":" ++ py " " ++ py "5" ++ [])
    = Some [py "a], [b"; py "5"]
  ∧ (Z.of_nat (length (py "5")) ≤ MAX_STR_DIGITS →
     ∃ v, int_of_str (py "5") = Some v
          ∧ classify ([] ++ py "[" ++ py "a], [b" ++ py "]" ++ [] ++ py ":" ++ py " " ++ py "5" ++ [])
            = Entry (Item (normalize_key (py "a], [b")) v)).
Proof.
  apply (item_inner_is_greedy [] (py "a], [b") [] (py " ") (py "5") []).
  - constructor.
  - apply (bool_decide_unpack _). vm_compute. exact I.
  - constructor.
  - repeat constructor.
  - split; [discriminate|repeat constructor].
  - constructor.
Defined.

Example bracket_in_key_example :
  convert (py "State 4" ++ [LF] ++ py "[a], [b]: 5") false
  = Some [(py "4", [Item (py "[a], [b]") 5])].
Proof. vm_compute. reflexivity. Qed.

(** ** Values *)


Section values.
Context (P : Z → Prop).
Hypothesis classify_P : ∀ line it, classify line = Entry it → P (value it).

Lemma values_all_setdefault k d :
  values_all P d → values_all P (setdefault k [] d).
Proof.
  intros Hd. unfold setdefault. destruct (getitem k d); [done|].
  intros k' its it [Hin|Hin]%elem_of_app; [by eapply Hd|].
  apply list_elem_of_singleton in Hin. injection Hin as -> ->.
  by intros ?%elem_of_nil.
Qed.

Lemma values_all_add_entry k x d :
  P (value x) → values_all P d → values_all P (add_entry k x d).
Proof.
  intros Hx. induction d as [|[k0 v] d IH]; intros Hd; simpl; [done|].
  assert (values_all P d) as Hd'.
  { intros k' its it Hin. apply (Hd k' its it). by right. }
  case_decide.
  - intros k' its it [Hin|Hin]%elem_of_cons; [|by eapply Hd'].
    injection Hin as -> ->.
    intros [Hit|Hit]%elem_of_app.
    + apply (Hd k0 v it); [left|done].
    + apply list_elem_of_singleton in Hit. by subst.
  - intros k' its it [Hin|Hin]%elem_of_cons; [|by eapply IH].
    injection Hin as -> ->. apply (Hd k0 v it). left.
Qed.

Lemma values_all_run lines : ∀ st,
  values_all P (data st) → values_all P (data (run st lines)).
Proof.
  induction lines as [|l ls IH]; intros st Hst; [done|].
  rewrite run_cons. apply IH.
  destruct (classify l) as [n|it|] eqn:E; simpl; [| |done].
  - by apply values_all_setdefault.
  - destruct (current_state st); [|done]. simpl.
    apply values_all_add_entry; [|done]. by eapply classify_P.
Qed.

Lemma values_all_table lines b : values_all P (table lines b).
Proof.
  assert (values_all P (data (run scan_init lines))) as H.
  { apply values_all_run. by intros k its it ?%elem_of_nil. }
  unfold table. destruct b; [|done]. unfold filled.
  generalize (range (max_state_seen (run scan_init lines) + 1)).
  revert H. generalize (data (run scan_init lines)).
  intros d Hd l. revert d Hd.
  induction l as [|s l IH]; intros d Hd; simpl; [done|].
  by apply IH, values_all_setdefault.
Qed.
End values.


Lemma last_colon_tail a rest w3 ds w4 pre :
  ":"%char ∉ rest → blank w3 → digits ds → blank w4 →
  a ++ ":"%char :: rest = pre ++ ":"%char :: w3 ++ ds ++ w4 →
  rest = w3 ++ ds ++ w4.
Proof.
  intros Hr B3 [_ D] B4 E. apply last_unique in E as [_ E]; [done..|].
  rewrite !not_elem_of_app. repeat split.
  - by apply (class_not_elem is_space).
  - by apply (class_not_elem is_digit).
  - by apply (class_not_elem is_space).
Qed.

(** A line whose text after its last colon is not a run of digits between
    blanks is no item line, and no header line either. *)
Lemma not_digits_no_match line a rest :
  line = a ++ ":"%char :: rest → ":"%char ∉ rest → ¬ digits (strip rest) →
  re_match STATE_RE line = None ∧ re_match ITEM_RE line = None.
Proof.
  intros El Hr Hnd. split.
  - destruct (re_match STATE_RE line) as [g|] eqn:E; [|done].
    destruct (state_re_shape _ _ E) as (ds' & _ & Hh).
    destruct (header_no_colon _ _ Hh). rewrite El.
    apply elem_of_app. right. left.
  - destruct (re_match ITEM_RE line) as [g|] eqn:E; [|done].
    destruct (item_re_shape _ _ E)
      as (inner & ds & _ & (w1&w2&w3&w4&El'&B1&L&B2&B3&D&B4)).
    exfalso. apply Hnd. rewrite El in El'.
    change (py ":") with [":"%char] in El'.
    replace (w1 ++ py "[" ++ inner ++ py "]" ++ w2 ++ [":"%char] ++ w3 ++ ds ++ w4)
      with ((w1 ++ py "[" ++ inner ++ py "]" ++ w2) ++ ":"%char :: w3 ++ ds ++ w4)
      in El' by (by rewrite <- !app_assoc).
    apply last_colon_tail in El'; [|done..].
    rewrite El'. by rewrite strip_digits.
Qed.

Lemma classify_other line :
  re_match STATE_RE line = None → re_match ITEM_RE line = None →
  classify line = Other.
Proof. intros H1 H2. unfold classify. by rewrite H1, H2. Qed.

(** C8.  Every value in the table that [convert] returns is a natural
    number.  A line that has a colon and whose text after the last colon is,
    once trimmed, not a run of digits (a sign, a letter, nothing at all)
    matches neither pattern and is ignored: the table is the one of the text
    without that line. *)
Theorem values_are_naturals (txt : str) (b : bool) (d : dict) :
  convert txt b = Some d →
  values_nonneg d
  ∧ ∀ pre line post a rest,
      splitlines txt = pre ++ line :: post →
      line = a ++ ":"%char :: rest →
      ":"%char ∉ rest →
      ¬ digits (strip rest) →
      re_match STATE_RE line = None
      ∧ re_match ITEM_RE line = None
      ∧ convert_lines (pre ++ post) b = Some d.
Proof.
  intros Hd. split.
  - apply convert_lines_table in Hd as ->.
    apply (values_all_table (λ v, 0 ≤ v) classify_entry).
  - intros pre line post a rest Hl El Hr Hnd.
    destruct (not_digits_no_match _ _ _ El Hr Hnd) as [H1 H2].
    split; [done|]. split; [done|].
    unfold convert in Hd. by rewrite Hl, convert_lines_skip in Hd.
Qed.

Lemma values_are_naturals_witness :
  values_nonneg [(py "0", [Item (py "[W]") 5])]
  ∧ re_match STATE_RE (py "[X]: -5") = None
  ∧ re_match ITEM_RE (py "[X]: -5") = None
  ∧ convert_lines ([py "State 0"] ++ [py "[W]: 5"]) false
    = Some [(py "0", [Item (py "[W]") 5])].
Proof.
  assert (convert (py "State 0" ++ [LF] ++ py "[X]: -5" ++ [LF] ++ py "[W]: 5") false
          = Some [(py "0", [Item (py "[W]") 5])]) as E
    by (vm_compute; reflexivity).
  destruct (values_are_naturals _ _ _ E) as [Hv H].
  split; [exact Hv|].
  apply (H [py "State 0"] (py "[X]: -5") [py "[W]: 5"] (py "[X]") (py " -5")).
  - vm_compute. reflexivity.
  - reflexivity.
  - apply (bool_decide_unpack _). vm_compute. exact I.
  - intros [_ D]. vm_compute in D. apply Forall_cons in D as [D _].
    discriminate D.
Defined.

Example negative_value_ignored :
  convert (py "State 0" ++ [LF] ++ py "[X]: -5" ++ [LF] ++ py "[Y]: +5" ++ [LF]
           ++ py "[Z]: 5x" ++ [LF] ++ py "[W]: 5") false
  = Some [(py "0", [Item (py "[W]") 5])].
Proof. vm_compute. reflexivity. Qed.

(** ** [normalize_key] *)

Lemma keep_iff (p : str) :
  ¬ is_tag p ∧ p ≠ [] ↔ p ≠ py "T" ∧ p ≠ py "NT" ∧ p ≠ [].
Proof.
  unfold is_tag. rewrite !elem_of_cons, elem_of_nil. tauto.
Qed.

(** C3.  [normalize_key] cuts the raw key at its commas (the pieces are the
    only comma-free strings that give the key back when joined with
    commas), trims every piece of the blanks at its two ends and of nothing
    else, drops the trimmed pieces that are T, NT or empty, and joins the
    others with a comma and a blank between square brackets. *)
Theorem normalize_key_spec (inner : str) :
  ∃ toks,
    inner = join (py ",") toks
    ∧ Forall (λ t, ","%char ∉ t) toks
    ∧ (∀ toks', toks' ≠ [] → Forall (λ t, ","%char ∉ t) toks' →
                inner = join (py ",") toks' → toks' = toks)
    ∧ normalize_key inner
      = py "[" ++ join (py ", ")
                    (filter (λ t, t ≠ py "T" ∧ t ≠ py "NT" ∧ t ≠ [])
                            (strip <$> toks))
        ++ py "]"
    ∧ Forall (λ t, ∃ l r, t = l ++ strip t ++ r ∧ blank l ∧ blank r
                          ∧ stops is_space (strip t)
                          ∧ stops is_space (rev (strip t))) toks.
Proof.
  exists (split "," inner).
  destruct (join_split "," inner) as [Hj Hc].
  split; [done|]. split; [done|]. split; [|split].
  - intros toks' Hne Hc' ->. symmetry. by apply split_join.
  - unfold normalize_key, key_parts. do 3 f_equal.
    apply filter_fresh. intros p _. apply keep_iff.
  - apply Forall_forall. intros t _. apply strip_spec.
Qed.

Lemma strip_no_sep sep t : sep ∉ t → sep ∉ strip t.
Proof.
  destruct (strip_spec t) as (l & r & E & _). rewrite E at 1.
  rewrite !not_elem_of_app. tauto.
Qed.

Lemma strip_split_join ps : ∀ w,
  ps ≠ [] → Forall (λ p, ","%char ∉ p) ps → blank w → ","%char ∉ w →
  strip <$> split "," (w ++ join (py ", ") ps) = strip <$> ps.
Proof.
  induction ps as [|p ps IH]; [done|]. intros w _ [Hp Hps]%Forall_cons Bw Hw.
  destruct ps as [|q ps].
  - simpl. rewrite split_no_sep by (rewrite not_elem_of_app; done).
    simpl. by rewrite strip_blank_l.
  - change (join (py ", ") (p :: q :: ps))
      with (p ++ ","%char :: (py " " ++ join (py ", ") (q :: ps))).
    rewrite app_assoc, split_app_sep by (rewrite not_elem_of_app; done).
    rewrite fmap_cons, strip_blank_l by done.
    rewrite (fmap_cons strip p). f_equal.
    apply IH; [done|done|by repeat constructor|].
    change (py " ") with [" "%char].
    rewrite not_elem_of_cons. split; [done|apply not_elem_of_nil].
Qed.

(** The parts of a key, joined, are a key with the same parts. *)
Lemma key_parts_join (ps : list str) :
  Forall (λ p, (","%char ∉ p) ∧ strip p = p ∧ ¬ is_tag p ∧ p ≠ []) ps →
  key_parts (join (py ", ") ps) = ps.
Proof.
  intros Hps. destruct (decide (ps = [])) as [->|Hne]; [done|].
  unfold key_parts.
  pose proof (strip_split_join ps [] Hne) as E. rewrite app_nil_l in E. rewrite E.
  - clear E Hne. induction Hps as [|p ps (_ & Hs & Hk) _ IH]; [done|].
    rewrite fmap_cons, filter_cons, Hs, decide_True by done. by rewrite IH.
  - eapply Forall_impl; [done|]. by intros p (? & _).
  - constructor.
  - apply not_elem_of_nil.
Qed.

Lemma key_parts_clean inner :
  Forall (λ p, (","%char ∉ p) ∧ strip p = p ∧ ¬ is_tag p ∧ p ≠ [])
         (key_parts inner).
Proof.
  unfold key_parts. apply Forall_forall. intros p [Hk Hp]%list_elem_of_filter.
  apply list_elem_of_fmap in Hp as (t & -> & Ht).
  destruct (join_split "," inner) as [_ Hc]. rewrite Forall_forall in Hc.
  split; [by apply strip_no_sep, Hc|]. split; [apply strip_strip|done].
Qed.

(** Normalizing the inner text of a key gives the key, for every key that
    [normalize_key] returns. *)
Lemma normalize_key_inner_text (inner : str) :
  normalize_key (join (py ", ") (key_parts inner)) = normalize_key inner.
Proof.
  unfold normalize_key. by rewrite key_parts_join by apply key_parts_clean.
Qed.

(** C4.  On a raw key without T, NT or empty tokens, the key is the trimmed
    tokens joined with a comma and a blank between square brackets, and
    normalizing the text between these brackets gives the same key. *)
Theorem normalize_key_idempotent (inner : str) :
  Forall (λ t, ¬ is_tag (strip t) ∧ strip t ≠ []) (split "," inner) →
  normalize_key inner
  = py "[" ++ join (py ", ") (strip <$> split "," inner) ++ py "]"
  ∧ normalize_key (join (py ", ") (strip <$> split "," inner))
    = normalize_key inner.
Proof.
  intros Hdom.
  assert (key_parts inner = strip <$> split "," inner) as E.
  { unfold key_parts. induction Hdom as [|t ts Ht _ IH]; [done|].
    rewrite fmap_cons, filter_cons, decide_True by done. by rewrite IH. }
  split.
  - unfold normalize_key. by rewrite E.
  - rewrite <- E. apply normalize_key_inner_text.
Qed.

Lemma normalize_key_idempotent_witness :
  normalize_key (py " ID ,=,  Expr")
  = py "[" ++ join (py ", ") (strip <$> split "," (py " ID ,=,  Expr")) ++ py "]"
  ∧ normalize_key (join (py ", ") (strip <$> split "," (py " ID ,=,  Expr")))
    = normalize_key (py " ID ,=,  Expr").
Proof.
  apply (normalize_key_idempotent (py " ID ,=,  Expr")).
  apply (bool_decide_unpack _). vm_compute. exact I.
Defined.

Example normalize_key_examples :
  normalize_key (py "T, ID, T, =, NT, Expr") = py "[ID, =, Expr]"
  ∧ normalize_key (py "ID, =, Expr") = py "[ID, =, Expr]"
  ∧ normalize_key (py "t, nt, T , ,NT") = py "[t, nt]"
  ∧ normalize_key (py " a b ,, c.d ") = py "[a b, c.d]"
  ∧ normalize_key [] = py "[]".
Proof. repeat split; vm_compute; reflexivity. Qed.

(** * Further properties of the program *)

(** ** The two patterns *)

(** X1.  No line is accepted by both patterns, so the order in which the
    loop tries them, and the [continue] after a header, decide nothing. *)
Theorem patterns_exclusive (line : str) :
  re_match STATE_RE line = None ∨ re_match ITEM_RE line = None.
Proof.
  destruct (re_match ITEM_RE line) as [g|] eqn:E; [|by right]. left.
  destruct (item_re_shape _ _ E) as (inner & ds & _ & Hi).
  by eapply item_not_header.
Qed.

(** X2.  [STATE_RE] accepts exactly the lines made of blanks, the word
    State, at least one blank, a run of digits and blanks, and captures the
    digits. *)
Theorem state_re_accepts (line : str) (g : list str) :
  re_match STATE_RE line = Some g ↔ ∃ ds, g = [ds] ∧ header_shape line ds.
Proof.
  split; [apply state_re_shape|].
  intros (ds & -> & Hs). by apply state_re_match.
Qed.

(** X3.  [ITEM_RE] accepts exactly the lines made of blanks, a text without
    line feed between square brackets, blanks, a colon, blanks, a run of
    digits and blanks, and captures the text and the digits. *)
Theorem item_re_accepts (line : str) (g : list str) :
  re_match ITEM_RE line = Some g
  ↔ ∃ inner ds, g = [inner; ds] ∧ item_shape line inner ds.
Proof.
  split; [apply item_re_shape|].
  intros (inner & ds & -> & Hs). by apply item_re_match.
Qed.

(** ** [convert] as a whole *)


(** The loop raises on a header line of more digits than [int] reads. *)
Lemma scan_lines_long_header lines line ds : ∀ st,
  line ∈ lines → header_shape line ds →
  MAX_STR_DIGITS < Z.of_nat (length ds) →
  scan_lines st lines = None.
Proof.
  intros st Hin Hs Hlen. revert st.
  induction Hin as [l ls|l l' ls Hin IH]; intros st; simpl.
  - unfold step. rewrite (state_re_match _ _ Hs). simpl.
    by rewrite int_of_str_long.
  - destruct (step st l') as [st'|]; [|done]. simpl. by apply IH.
Qed.



(** On a header line of more digits [convert] raises, for either flag. *)
Lemma convert_long_header (txt : str) (b : bool) (line ds : str) :
  line ∈ splitlines txt → header_shape line ds →
  MAX_STR_DIGITS < Z.of_nat (length ds) →
  convert txt b = None.
Proof.
  intros Hin Hs Hlen. unfold convert, convert_lines.
  by rewrite (scan_lines_long_header _ _ _ _ Hin Hs Hlen).
Qed.

(** The loop raises on an item line of more digits under a state. *)
Lemma step_long_item st cs line inner ds :
  current_state st = Some cs → item_shape line inner ds →
  MAX_STR_DIGITS < Z.of_nat (length ds) → step st line = None.
Proof.
  intros Ec Hi Hlen. unfold step.
  rewrite (item_not_header _ _ _ Hi), (item_re_match _ _ _ Hi), Ec. simpl.
  by rewrite int_of_str_long.
Qed.

Lemma convert_long_item (txt : str) (b : bool) pre line post st cs inner ds :
  splitlines txt = pre ++ line :: post →
  scan_lines scan_init pre = Some st → current_state st = Some cs →
  item_shape line inner ds → MAX_STR_DIGITS < Z.of_nat (length ds) →
  convert txt b = None.
Proof.
  intros Hl Hpre Ec Hi Hlen. unfold convert, convert_lines.
  rewrite Hl, scan_lines_app, Hpre. simpl.
  by rewrite (step_long_item _ _ _ _ _ Ec Hi Hlen).
Qed.

(** An item line of 4301 digits makes [convert] raise when it comes under a
    state, and is ignored before the first header. *)
Example convert_long_number :
  convert (py "State 0" ++ [LF] ++ py "[X]: " ++ replicate 4301 "1"%char) true
  = None
  ∧ convert (py "[X]: " ++ replicate 4301 "1"%char ++ [LF] ++ py "State 0") true
    = Some [(py "0", [])].
Proof.
  assert (item_shape (py "[X]: " ++ replicate 4301 "1"%char) (py "X")
            (replicate 4301 "1"%char)) as Hi.
  { exists [], [], (py " "), []. rewrite app_nil_r.
    split; [reflexivity|]. split; [constructor|].
    split; [by apply (class_not_elem is_dot); repeat constructor|].
    split; [constructor|]. split; [by repeat constructor|].
    split; [|constructor]. split; [done|]. by apply Forall_replicate. }
  split.
  - apply (convert_long_item _ true [py "State 0"]
             (py "[X]: " ++ replicate 4301 "1"%char) []
             (Scan [(py "0", [])] (Some 0) 0) 0 (py "X")
             (replicate 4301 "1"%char)); [| |done|done|].
    + vm_compute; reflexivity.
    + vm_compute; reflexivity.
    + rewrite length_replicate. by vm_compute.
  - assert (splitlines (py "[X]: " ++ replicate 4301 "1"%char ++ [LF]
                        ++ py "State 0")
            = [py "[X]: " ++ replicate 4301 "1"%char] ++ [py "State 0"]) as E
      by (vm_compute; reflexivity).
    unfold convert. rewrite E, convert_lines_no_state; [vm_compute; reflexivity|].
    constructor; [|constructor]. by eapply item_not_header.
Qed.

Lemma fill_from l : ∀ d,
  NoDup l →
  foldl (λ d s, setdefault (decimal s) [] d) d l
  = d ++ (empty_state <$> filter (λ n, decimal n ∉ keys d) l).
Proof.
  induction l as [|n l IH]; intros d Hl; simpl.
  - by rewrite app_nil_r.
  - apply NoDup_cons in Hl as [Hn Hl]. rewrite IH by done.
    rewrite filter_cons. unfold setdefault.
    destruct (getitem (decimal n) d) as [v|] eqn:E.
    + rewrite decide_False; [done|].
      intros Hk. apply getitem_None in Hk. congruence.
    + apply getitem_None in E. rewrite decide_True by done.
      rewrite <- app_assoc. simpl. do 3 f_equal.
      apply filter_fresh. intros m Hm. unfold keys.
      rewrite fmap_app, not_elem_of_app. simpl.
      rewrite list_elem_of_singleton. split; [tauto|].
      intros Hk. split; [done|]. intros Heq%(inj decimal). by subst.
Qed.



Lemma all_records_setdefault k d : all_records (setdefault k [] d) = all_records d.
Proof.
  unfold setdefault, all_records. destruct (getitem k d); [done|].
  rewrite fmap_app, concat_app. simpl. by rewrite app_nil_r.
Qed.

Lemma all_records_add_entry k x d :
  is_Some (getitem k d) → all_records (add_entry k x d) ≡ₚ x :: all_records d.
Proof.
  unfold all_records. induction d as [|[k' v] d IH]; simpl; [by intros [? ?]|].
  case_decide; simpl.
  - intros _. rewrite <- app_assoc. simpl. by rewrite <- Permutation_middle.
  - intros H'. rewrite IH by done. by rewrite <- Permutation_middle.
Qed.

Lemma entries_cons line lines :
  entries (line :: lines)
  = match entry_of line with
    | Some it => it :: entries lines
    | None => entries lines
    end.
Proof. unfold entries. simpl. by destruct (entry_of line). Qed.

Lemma all_records_run lines : ∀ st,
  ready st → is_Some (current_state st) →
  all_records (data (run st lines)) ≡ₚ all_records (data st) ++ entries lines.
Proof.
  induction lines as [|l ls IH]; intros st Hr [cs Hc].
  { simpl. by rewrite app_nil_r. }
  rewrite run_cons, entries_cons. unfold entry_of.
  destruct (classify l) as [n|it|] eqn:E.
  - rewrite IH by (by apply apply_kind_ready || by eexists).
    simpl. by rewrite all_records_setdefault.
  - rewrite IH.
    + simpl. rewrite Hc. simpl. rewrite all_records_add_entry by auto.
      simpl. by rewrite <- Permutation_middle.
    + by apply apply_kind_ready.
    + simpl. rewrite Hc. by eexists.
  - simpl. apply IH; [done|by eexists].
Qed.

Lemma run_from_first_header lines :
  run scan_init lines = run scan_init (from_first_header lines).
Proof.
  induction lines as [|l ls IH]; [done|]. simpl from_first_header.
  destruct (header_of l) as [n|] eqn:E; [done|].
  rewrite <- IH, run_cons. f_equal. unfold header_of in E.
  by destruct (classify l).
Qed.

Lemma all_records_init lines :
  all_records (data (run scan_init lines)) ≡ₚ entries (from_first_header lines).
Proof.
  rewrite run_from_first_header.
  assert (from_first_header lines = []
          ∨ ∃ h rest n, from_first_header lines = h :: rest ∧ header_of h = Some n)
    as [->|(h & rest & n & -> & Hh)].
  { induction lines as [|l ls IH]; [by left|]. simpl.
    destruct (header_of l) as [n|] eqn:E; [|done]. right. by exists l, ls, n. }
  - done.
  - rewrite run_cons, entries_cons, (header_not_entry h n Hh).
    rewrite all_records_run.
    + unfold header_of in Hh. destruct (classify h); try done.
    + apply apply_kind_ready, ready_init.
    + unfold header_of in Hh. destruct (classify h); done.
Qed.

(** X6.  Nothing is lost and nothing is made up: the records of the table
    that [convert] returns, all states together, are the records of the item
    lines that come after the first header line, each line once (an item
    line that occurs twice is recorded twice).  Gap filling changes nothing
    to that. *)
Theorem records_conserved (txt : str) (b : bool) (d : dict) :
  convert txt b = Some d →
  all_records d ≡ₚ entries (from_first_header (splitlines txt)).
Proof.
  intros Hd. apply convert_lines_table in Hd as ->. unfold table.
  destruct b; [|apply all_records_init].
  unfold filled. rewrite fill_from by apply NoDup_seqZ.
  unfold all_records at 1. rewrite fmap_app, concat_app.
  fold (all_records (data (run scan_init (splitlines txt)))).
  rewrite all_records_init.
  assert (∀ l : list Z, concat ((empty_state <$> l).*2) = []) as ->.
  { intros l. induction l as [|n l IH]; [done|]. simpl. apply IH. }
  by rewrite app_nil_r.
Qed.

Lemma records_conserved_witness :
  all_records scenario_filled ≡ₚ entries (from_first_header (splitlines scenario)).
Proof.
  apply (records_conserved scenario true scenario_filled).
  vm_compute. reflexivity.
Defined.

(** X7.  With gap filling the table that [convert] returns has exactly
    maxState + 1 states, none when there is no header line. *)
Theorem filled_table_size (txt : str) (d : dict) :
  convert txt true = Some d →
  length d = Z.to_nat (max_of (headers (splitlines txt)) + 1).
Proof.
  intros Hd. apply convert_lines_table in Hd as ->. unfold table.
  set (hs := headers (splitlines txt)).
  rewrite <- (length_fmap fst). fold (keys (filled (run scan_init (splitlines txt)))).
  rewrite fill_init_keys, length_fmap. fold hs.
  rewrite <- (length_seqZ 0 (max_of hs + 1)).
  apply Permutation_length, NoDup_Permutation.
  - apply NoDup_first_seen_from. apply NoDup_first_seen.
  - apply NoDup_seqZ.
  - intros n. rewrite elem_of_first_seen_from, elem_of_first_seen.
    unfold range. rewrite elem_of_seqZ. split; [|by right].
    intros [Hn|Hn]; [|done].
    destruct (max_of_spec hs) as (Hle & _). specialize (Hle n Hn).
    pose proof (headers_nonneg (splitlines txt) n Hn). lia.
Qed.

Lemma filled_table_size_witness :
  length scenario_filled
  = Z.to_nat (max_of (headers (splitlines scenario)) + 1).
Proof.
  apply (filled_table_size scenario scenario_filled).
  vm_compute. reflexivity.
Defined.

(** ** Lines that are neither headers nor items *)

(** X8.  A line whose first character after its leading blanks is neither
    S nor an opening bracket, a blank or empty line among them, is ignored:
    the table is the one of the lines without it. *)
Theorem unrelated_line_ignored (pre post : list str) (w rest : str) (b : bool) :
  blank w →
  match rest with
  | [] => True
  | c :: _ => is_space c = false ∧ c ≠ "S"%char ∧ c ≠ "["%char
  end →
  classify (w ++ rest) = Other
  ∧ convert_lines (pre ++ (w ++ rest) :: post) b = convert_lines (pre ++ post) b.
Proof.
  intros Hw Hrest.
  assert (stops is_space rest) as Hstop by (destruct rest; [done|apply Hrest]).
  assert (re_match STATE_RE (w ++ rest) = None) as H1.
  { destruct (re_match STATE_RE (w ++ rest)) as [g|] eqn:E; [|done].
    destruct (state_re_shape _ _ E) as (ds & _ & (w1 & w2 & w3 & El & B1 & _)).
    apply run_unique with (p := is_space) in El as [_ El]; [|done..].
    destruct rest as [|c rest]; [done|]. injection El as ->.
    by destruct Hrest as (_ & ? & _). }
  assert (re_match ITEM_RE (w ++ rest) = None) as H2.
  { destruct (re_match ITEM_RE (w ++ rest)) as [g|] eqn:E; [|done].
    destruct (item_re_shape _ _ E)
      as (inner & ds & _ & (w1 & w2 & w3 & w4 & El & B1 & _)).
    apply run_unique with (p := is_space) in El as [_ El]; [|done..].
    destruct rest as [|c rest]; [done|]. injection El as ->.
    by destruct Hrest as (_ & _ & ?). }
  split; [by apply classify_other|]. by apply convert_lines_skip.
Qed.

Lemma unrelated_line_ignored_witness :
  classify (py "  " ++ py "# States of the parser") = Other
  ∧ convert_lines ([py "State 0"] ++ (py "  " ++ py "# States of the parser")
                   :: [py "[a]: 1"]) true
    = convert_lines ([py "State 0"] ++ [py "[a]: 1"]) true.
Proof.
  apply (unrelated_line_ignored [py "State 0"] [py "[a]: 1"] (py "  ")
           (py "# States of the parser") true).
  - repeat constructor.
  - vm_compute. repeat split; discriminate.
Defined.

(** ** The lines of the text *)

Lemma splitlines_from_line l : ∀ cur a rest,
  unbroken l →
  splitlines_from cur a (l ++ rest)
  = match l with
    | [] => splitlines_from cur a rest
    | _ => splitlines_from (rev l ++ cur) false rest
    end.
Proof.
  induction l as [|c l IH]; intros cur a rest Hl; [done|].
  apply Forall_cons in Hl as [Hc Hl]. simpl app at 1. simpl splitlines_from.
  assert (c ≠ LF) as Hn by (intros ->; done).
  rewrite (bool_decide_eq_false_2 _ Hn), andb_false_r, Hc, IH by done.
  destruct l as [|c' l]; [done|]. simpl. by rewrite <- !app_assoc.
Qed.

Lemma splitlines_from_lf lines :
  Forall unbroken lines → splitlines_from [] false (terminated [LF] lines) = lines.
Proof.
  induction 1 as [|l ls Hl _ IH]; [done|].
  unfold terminated. rewrite fmap_cons. simpl concat. rewrite <- app_assoc.
  rewrite splitlines_from_line by done.
  fold (terminated [LF] ls). destruct l as [|c l]; simpl.
  - by rewrite IH.
  - rewrite app_nil_r, IH. f_equal.
    change (rev (rev l ++ [c]) = c :: l). rewrite rev_app_distr. simpl.
    by rewrite rev_involutive.
Qed.

Lemma splitlines_from_crlf lines :
  Forall unbroken lines →
  splitlines_from [] false (terminated [CR; LF] lines) = lines.
Proof.
  induction 1 as [|l ls Hl _ IH]; [done|].
  unfold terminated. rewrite fmap_cons. simpl concat. rewrite <- app_assoc.
  rewrite splitlines_from_line by done.
  fold (terminated [CR; LF] ls). destruct l as [|c l]; simpl.
  - by rewrite IH.
  - rewrite app_nil_r, IH. f_equal.
    change (rev (rev l ++ [c]) = c :: l). rewrite rev_app_distr. simpl.
    by rewrite rev_involutive.
Qed.

Lemma splitlines_from_cr lines :
  Forall unbroken lines →
  ∀ a, splitlines_from [] a (terminated [CR] lines) = lines.
Proof.
  induction 1 as [|l ls Hl _ IH]; intros a; [done|].
  unfold terminated. rewrite fmap_cons. simpl concat. rewrite <- app_assoc.
  rewrite splitlines_from_line by done.
  fold (terminated [CR] ls). destruct l as [|c l]; simpl.
  - rewrite andb_false_r. simpl. by rewrite IH.
  - rewrite app_nil_r, IH. f_equal.
    change (rev (rev l ++ [c]) = c :: l). rewrite rev_app_distr. simpl.
    by rewrite rev_involutive.
Qed.

(** X9.  The terminator of the lines does not matter: a text whose lines end
    with a line feed, with a carriage return and a line feed, or with a
    carriage return splits into the same lines, so [convert] returns the
    same table for the three. *)
Theorem terminator_independent (lines : list str) (b : bool) :
  Forall unbroken lines →
  splitlines (terminated [LF] lines) = lines
  ∧ convert (terminated [CR; LF] lines) b = convert (terminated [LF] lines) b
  ∧ convert (terminated [CR] lines) b = convert (terminated [LF] lines) b.
Proof.
  intros H. unfold convert, splitlines.
  by rewrite splitlines_from_lf, splitlines_from_crlf, splitlines_from_cr.
Qed.

Lemma terminator_independent_witness :
  splitlines (terminated [LF] [py "State 0"; []; py "[a]: 1"])
  = [py "State 0"; []; py "[a]: 1"]
  ∧ convert (terminated [CR; LF] [py "State 0"; []; py "[a]: 1"]) true
    = convert (terminated [LF] [py "State 0"; []; py "[a]: 1"]) true
  ∧ convert (terminated [CR] [py "State 0"; []; py "[a]: 1"]) true
    = convert (terminated [LF] [py "State 0"; []; py "[a]: 1"]) true.
Proof.
  apply (terminator_independent [py "State 0"; []; py "[a]: 1"] true).
  repeat constructor.
Defined.

Lemma splitlines_from_nonempty s : ∀ cur,
  cur ≠ [] ∨ s ≠ [] → splitlines_from cur false s ≠ [].
Proof.
  induction s as [|c s IH]; intros cur H; simpl.
  - destruct H as [H|H]; [|done]. by destruct cur.
  - destruct (is_linebreak c); [done|]. apply IH. by left.
Qed.

Lemma splitlines_from_lf_then lines rest :
  Forall unbroken lines →
  splitlines_from [] false (terminated [LF] lines ++ rest)
  = lines ++ splitlines_from [] false rest.
Proof.
  induction 1 as [|l ls Hl _ IH]; [done|].
  unfold terminated. rewrite fmap_cons. simpl concat. rewrite <- !app_assoc.
  rewrite splitlines_from_line by done.
  fold (terminated [LF] ls). destruct l as [|c l]; simpl.
  - by rewrite IH.
  - rewrite app_nil_r, IH. f_equal.
    change (rev (rev l ++ [c]) = c :: l). rewrite rev_app_distr. simpl.
    by rewrite rev_involutive.
Qed.

(** X10.  No line given to the loop holds a line boundary; only the empty
    text has no line; a final terminator adds no empty line: a text whose
    lines all end with a line feed splits into these lines and nothing
    more; and a text that does not end with a terminator keeps its last
    line. *)
Theorem splitlines_lines (txt : str) :
  Forall unbroken (splitlines txt)
  ∧ (splitlines txt = [] ↔ txt = [])
  ∧ (∀ lines, Forall unbroken lines →
       splitlines (terminated [LF] lines) = lines)
  ∧ ∀ lines last, Forall unbroken lines → unbroken last → last ≠ [] →
      splitlines (terminated [LF] lines ++ last) = lines ++ [last].
Proof.
  split; [|split; [|split]].
  - apply splitlines_from_no_break. constructor.
  - split; [|by intros ->]. intros H. destruct txt as [|c txt]; [done|].
    exfalso. revert H. apply splitlines_from_nonempty. by right.
  - intros lines Hl. by apply splitlines_from_lf.
  - intros lines last Hl Hlast Hne. unfold splitlines.
    rewrite splitlines_from_lf_then by done. f_equal.
    rewrite <- (app_nil_r last) at 1. rewrite splitlines_from_line by done.
    destruct last as [|c l]; [done|]. simpl.
    destruct (rev l ++ [c]) as [|x xs] eqn:E.
    { by destruct (rev l). }
    rewrite app_nil_r. rewrite <- E. f_equal.
    rewrite rev_app_distr. simpl. by rewrite rev_involutive.
Qed.

(** ** Names of states *)

(** X11.  The name of a state reads back as its number: [int (str n)] is
    [n] for every state number that [str] writes, so the names of different
    states differ and the keys of the table can be read back as state
    numbers. *)
Theorem state_name_round_trip (n : Z) (k : str) :
  0 ≤ n → str_of_int n = Some k → int_of_str k = Some n.
Proof. apply int_of_decimal. Qed.

Lemma state_name_round_trip_witness : int_of_str (py "120") = Some 120.
Proof. apply (state_name_round_trip 120 (py "120")); [lia|reflexivity]. Defined.

(** X12.  Every key of the table that [convert] returns is the name that
    [str] writes for a state number from 0 on, and reads back as that
    number. *)
Theorem keys_are_state_names (txt : str) (b : bool) (d : dict) :
  convert txt b = Some d →
  Forall (λ k, ∃ n, 0 ≤ n ∧ str_of_int n = Some k ∧ int_of_str k = Some n)
         (keys d).
Proof.
  intros Hd. apply convert_lines_table in Hd as ->. unfold table.
  pose proof (run_writable (splitlines txt) scan_init writable_init) as [_ Hw].
  rewrite run_init_max in Hw.
  assert (∀ ns : list Z,
            Forall (λ n, 0 ≤ n ∧ str_of_int n = Some (decimal n)) ns →
            Forall (λ k, ∃ n, 0 ≤ n ∧ str_of_int n = Some k
                              ∧ int_of_str k = Some n)
                   (decimal <$> ns)) as Hnames.
  { intros ns Hns. apply Forall_fmap. eapply Forall_impl; [done|].
    intros n [Hn Hs]. exists n. split; [done|]. split; [done|].
    by apply int_of_decimal. }
  assert (∀ n, n ∈ headers (splitlines txt) →
               0 ≤ n ∧ str_of_int n = Some (decimal n)) as Hh.
  { intros n Hn. unfold headers in Hn. apply list_elem_of_omap in Hn.
    destruct Hn as (line & _ & Hline). unfold header_of in Hline.
    destruct (classify line) as [m| |] eqn:E; try done.
    injection Hline as ->. by apply classify_header in E. }
  destruct b.
  - rewrite fill_init_keys. apply Hnames, Forall_forall. intros n Hn.
    apply elem_of_first_seen_from in Hn as [Hn|Hn].
    + rewrite elem_of_first_seen in Hn. by apply Hh.
    + unfold range in Hn. apply elem_of_seqZ in Hn. split; [lia|].
      destruct (Hw n ltac:(lia)) as [k Hk].
      by rewrite Hk, (str_of_int_Some _ _ Hk).
  - rewrite run_init_keys. apply Hnames, Forall_forall. intros n Hn.
    rewrite elem_of_first_seen in Hn. by apply Hh.
Qed.

Lemma keys_are_state_names_witness :
  Forall (λ k, ∃ n, 0 ≤ n ∧ str_of_int n = Some k ∧ int_of_str k = Some n)
         (keys scenario_filled).
Proof.
  apply (keys_are_state_names scenario true scenario_filled).
  vm_compute. reflexivity.
Defined.

(** The state of a header line is the value of its digits. *)
Lemma header_of_shape line ds :
  header_shape line ds → header_of line = int_of_str ds.
Proof.
  intros Hs. unfold header_of, classify. rewrite (state_re_match _ _ Hs).
  simpl. by destruct (int_of_str ds).
Qed.

Lemma int_from_zeros k ds : int_from 0 (replicate k "0"%char ++ ds) = int_from 0 ds.
Proof. induction k as [|k IH]; [done|]. simpl. exact IH. Qed.

(** X13.  The state number of a header is read as a number: leading zeros
    and the blanks around the parts of the line do not change the state,
    as long as the digits, zeros included, are not more than [int] reads. *)
Theorem header_leading_zeros (k : nat) (ds w1 w2 w3 v1 v2 v3 : str) :
  digits ds →
  Z.of_nat (k + length ds) ≤ MAX_STR_DIGITS →
  blank w1 → blank w2 → w2 ≠ [] → blank w3 →
  blank v1 → blank v2 → v2 ≠ [] → blank v3 →
  header_of (w1 ++ py "State" ++ w2 ++ (replicate k "0"%char ++ ds) ++ w3)
  = header_of (v1 ++ py "State" ++ v2 ++ ds ++ v3)
  ∧ is_Some (header_of (v1 ++ py "State" ++ v2 ++ ds ++ v3)).
Proof.
  intros D Hlen B1 B2 N2 B3 C1 C2 M2 C3.
  assert (digits (replicate k "0"%char ++ ds)) as D'.
  { destruct D as [Hne Hd]. split.
    - intros E. apply app_eq_nil in E as [_ E]. done.
    - apply Forall_app. split; [|done]. by apply Forall_replicate. }
  rewrite (header_of_shape _ (replicate k "0"%char ++ ds))
    by (by exists w1, w2, w3).
  rewrite (header_of_shape _ ds) by (by exists v1, v2, v3).
  split.
  - unfold int_of_str. pose proof D as [Hne _].
    destruct ds as [|c ds]; [done|].
    destruct (replicate k "0"%char ++ c :: ds) as [|x xs] eqn:E.
    { by apply app_eq_nil in E as [_ E]. }
    rewrite <- E, length_app, length_replicate.
    rewrite !(proj2 (Z.ltb_ge _ _)) by lia.
    apply int_from_zeros.
  - destruct (int_of_digits _ D) as (n & -> & _); [lia|]. by eexists.
Qed.

Lemma header_leading_zeros_witness :
  header_of ([] ++ py "State" ++ py "   " ++ (replicate 2 "0"%char ++ py "7") ++ py " ")
  = header_of ([] ++ py "State" ++ py " " ++ py "7" ++ [])
  ∧ is_Some (header_of ([] ++ py "State" ++ py " " ++ py "7" ++ [])).
Proof.
  apply (header_leading_zeros 2 (py "7") [] (py "   ") (py " ") [] (py " ") []);
    try (by repeat constructor); try discriminate.
Defined.

(** ** Keys of records *)

Lemma filter_nil_Forall {A} (P : A → Prop) `{∀ x, Decision (P x)} (l : list A) :
  filter P l = [] ↔ Forall (λ x, ¬ P x) l.
Proof.
  induction l as [|x l IH]; [by split; [constructor|]|].
  rewrite filter_cons, Forall_cons. destruct (decide (P x)).
  - split; [done|]. by intros [? _].
  - rewrite IH. tauto.
Qed.

Lemma join_nil sep (ps : list str) :
  Forall (λ p, p ≠ []) ps → join sep ps = [] → ps = [].
Proof.
  intros [|p qs Hp _]; [done|]. simpl.
  destruct qs; [done|]. by intros [? _]%app_eq_nil.
Qed.

Lemma normalize_key_parts a b :
  normalize_key a = normalize_key b → key_parts a = key_parts b.
Proof.
  unfold normalize_key. intros E. apply app_inv_head, app_inv_tail in E.
  rewrite <- (key_parts_join (key_parts a)) by apply key_parts_clean.
  rewrite <- (key_parts_join (key_parts b)) by apply key_parts_clean.
  by rewrite E.
Qed.

(** X14.  A raw key gives the key of no symbol, the two brackets alone,
    exactly when every one of its tokens, once trimmed, is T, NT or
    empty. *)
Theorem normalize_key_empty (inner : str) :
  normalize_key inner = py "[]"
  ↔ Forall (λ t, strip t = py "T" ∨ strip t = py "NT" ∨ strip t = [])
           (split "," inner).
Proof.
  assert (key_parts inner = []
          ↔ Forall (λ t, strip t = py "T" ∨ strip t = py "NT" ∨ strip t = [])
                   (split "," inner)) as <-.
  { unfold key_parts. rewrite filter_nil_Forall, Forall_fmap.
    apply Forall_proper; [|done]. intros t. simpl.
    rewrite keep_iff.
    destruct (decide (strip t = py "T")), (decide (strip t = py "NT")),
      (decide (strip t = [])); tauto. }
  split.
  - intros E. change (py "[]") with (normalize_key []) in E.
    by apply normalize_key_parts in E.
  - unfold normalize_key. by intros ->.
Qed.

(** X15.  The key tells the symbols apart: two raw keys get the same key
    exactly when they have the same symbols after trimming and dropping,
    in the same order.  Joining with a comma and a blank never merges or
    splits symbols. *)
Theorem normalize_key_same_parts (a b : str) :
  normalize_key a = normalize_key b ↔ key_parts a = key_parts b.
Proof.
  split; [apply normalize_key_parts|].
  unfold normalize_key. by intros ->.
Qed.

Example same_parts_example :
  normalize_key (py "T, a,NT ,b") = normalize_key (py " a ,, b")
  ∧ normalize_key (py "a b") ≠ normalize_key (py "a, b").
Proof. split; [vm_compute; reflexivity|]. vm_compute. discriminate. Qed.

(** ** The JSON text *)

Example dumps_scenario :
  output_text scenario true
  = Some (py "{" ++ [LF]
          ++ py "  " ++ [QUOTE] ++ py "0" ++ [QUOTE] ++ py ": [" ++ [LF]
          ++ py "    {" ++ [LF]
          ++ py "      " ++ [QUOTE] ++ py "key" ++ [QUOTE] ++ py ": "
          ++ [QUOTE] ++ py "[ID, =, Expr]" ++ [QUOTE] ++ py "," ++ [LF]
          ++ py "      " ++ [QUOTE] ++ py "value" ++ [QUOTE] ++ py ": 5" ++ [LF]
          ++ py "    }" ++ [LF]
          ++ py "  ]," ++ [LF]
          ++ py "  " ++ [QUOTE] ++ py "2" ++ [QUOTE] ++ py ": []" ++ [LF]
          ++ py "}")
  ∧ output_text [] false = Some (py "{}").
Proof. split; vm_compute; reflexivity. Qed.

Lemma unescape_escape c r : unescape_char (escape_char c ++ r) = Some (c, r).
Proof. each_ascii c. Qed.

Lemma escape_body_inj s : ∀ s' r r',
  concat (escape_char <$> s) ++ QUOTE :: r
  = concat (escape_char <$> s') ++ QUOTE :: r' →
  s = s' ∧ r = r'.
Proof.
  induction s as [|c s IH]; intros [|c' s'] r r' E; simpl in E.
  - by injection E as ->.
  - rewrite <- app_assoc in E. apply (f_equal unescape_char) in E.
    by rewrite unescape_escape in E.
  - rewrite <- app_assoc in E. apply (f_equal unescape_char) in E.
    by rewrite unescape_escape in E.
  - rewrite <- !app_assoc in E. apply (f_equal unescape_char) in E.
    rewrite !unescape_escape in E. injection E as -> E.
    by destruct (IH _ _ _ E) as [-> ->].
Qed.

(** Two strings with the same text are the same string, whatever follows
    them. *)
Lemma encode_basestring_inj s s' r r' :
  encode_basestring s ++ r = encode_basestring s' ++ r' → s = s' ∧ r = r'.
Proof.
  unfold encode_basestring. simpl. rewrite <- !app_assoc. simpl.
  intros [= E]. by apply escape_body_inj.
Qed.

Lemma uint_chars d :
  Forall (λ c, is_number_char c = true) (py (NilEmpty.string_of_uint d)).
Proof. induction d; simpl; by constructor. Qed.

Lemma decimal_chars z : Forall (λ c, is_number_char c = true) (decimal z).
Proof.
  unfold decimal. destruct (Z.to_int z) as [d|d]; simpl.
  - unfold NilZero.string_of_uint. destruct d; try apply uint_chars.
    by repeat constructor.
  - constructor; [done|]. unfold NilZero.string_of_uint.
    destruct d; try apply uint_chars. by repeat constructor.
Qed.

Lemma decimal_inj_then a b r r' :
  stops is_number_char r → stops is_number_char r' →
  decimal a ++ r = decimal b ++ r' → a = b ∧ r = r'.
Proof.
  intros Hr Hr' E.
  apply run_unique with (p := is_number_char) in E as [E ->];
    [|apply decimal_chars..|done|done].
  split; [|done]. by apply decimal_inj.
Qed.

Lemma dumps_item_inj it it' r r' :
  dumps_item it ++ r = dumps_item it' ++ r' → it = it' ∧ r = r'.
Proof.
  unfold dumps_item. rewrite <- !app_assoc. intros E.
  do 4 apply app_inv_head in E.
  apply encode_basestring_inj in E as [Hk E].
  do 4 apply app_inv_head in E.
  apply decimal_inj_then in E as [Hv E]; [|done..].
  do 2 apply app_inv_head in E.
  destruct it, it'. simpl in *. by subst.
Qed.

Section joined.
Context {A : Type} (f : A → str) (sep_rest end_rest : str).
Hypothesis f_inj : ∀ x y r r', f x ++ r = f y ++ r' → x = y ∧ r = r'.

(** Elements written one after the other with a comma between them and a
    line feed after the last are told apart. *)
Lemma join_inj (l : list A) : ∀ l' r r',
  l ≠ [] → l' ≠ [] →
  join (","%char :: sep_rest) (f <$> l) ++ (LF :: end_rest) ++ r
  = join (","%char :: sep_rest) (f <$> l') ++ (LF :: end_rest) ++ r' →
  l = l' ∧ r = r'.
Proof.
  induction l as [|x l IH]; [done|]. intros [|y l'] r r' _ Hne E; [done|].
  destruct l as [|x' l], l' as [|y' l'].
  - simpl in E. apply f_inj in E as [-> E]. by injection E as ->%app_inv_head.
  - exfalso. rewrite !fmap_cons in E. simpl in E. rewrite <- !app_assoc in E.
    by apply f_inj in E as [_ E].
  - exfalso. rewrite !fmap_cons in E. simpl in E. rewrite <- !app_assoc in E.
    by apply f_inj in E as [_ E].
  - rewrite (fmap_cons f x), (fmap_cons f y) in E.
    change (join ?s (?a :: (f <$> ?b :: ?c)))
      with (a ++ s ++ join s (f <$> b :: c)) in E.
    rewrite <- !app_assoc in E. apply f_inj in E as [-> E].
    simpl in E. injection E as E. apply app_inv_head in E.
    destruct (IH (y' :: l') r r') as [-> ->]; done.
Qed.
End joined.

Lemma dumps_list_inj l l' r r' :
  dumps_list l ++ r = dumps_list l' ++ r' → l = l' ∧ r = r'.
Proof.
  destruct l as [|x l], l' as [|y l']; intros E.
  - simpl in E. by injection E as ->.
  - done.
  - done.
  - unfold dumps_list in E. rewrite <- !app_assoc in E.
    do 2 apply app_inv_head in E.
    change (newline_indent 1) with (LF :: py "  ") in E.
    change (py "," ++ newline_indent 2) with (","%char :: newline_indent 2) in E.
    replace ((LF :: py "  ") ++ py "]" ++ r)
      with ((LF :: py "  ") ++ (py "]" ++ r)) in E by done.
    replace ((LF :: py "  ") ++ py "]" ++ r')
      with ((LF :: py "  ") ++ (py "]" ++ r')) in E by done.
    apply (join_inj dumps_item _ _ dumps_item_inj) in E as [-> E]; [|done..].
    by injection E as ->.
Qed.

Lemma dumps_member_inj m m' r r' :
  dumps_member m ++ r = dumps_member m' ++ r' → m = m' ∧ r = r'.
Proof.
  unfold dumps_member. rewrite <- !app_assoc. intros E.
  apply encode_basestring_inj in E as [Hk E]. apply app_inv_head in E.
  apply dumps_list_inj in E as [Hl ->].
  destruct m, m'. simpl in *. by subst.
Qed.

(** X16.  The JSON text determines the table: two tables that are written
    as the same text are the same table, with the same states in the same
    order and the same records.  Nothing of a key is lost in the writing,
    whatever characters it holds. *)
Theorem dumps_injective (d d' : dict) : dumps d = dumps d' → d = d'.
Proof.
  destruct d as [|m d], d' as [|m' d']; intros E; try done.
  unfold dumps in E.
  do 2 apply app_inv_head in E.
  change (newline_indent 0) with [LF] in E.
  change (py "," ++ newline_indent 1) with (","%char :: newline_indent 1) in E.
  by apply (join_inj dumps_member _ _ dumps_member_inj) in E as [-> _].
Qed.

Lemma dumps_injective_witness :
  [(py "0", [Item (py "[a]") 1])] = [(py "0", [Item (py "[a]") 1])].
Proof. apply (dumps_injective _ _). reflexivity. Defined.











(** A key with a quote, a backslash, a tabulation and a character of
    U+0085. *)
Example escaped_key :
  encode_basestring [QUOTE; BACKSLASH; ascii_of_N 9; ascii_of_N 1; ascii_of_N 133]
  = [QUOTE] ++ [BACKSLASH; QUOTE] ++ [BACKSLASH; BACKSLASH]
    ++ [BACKSLASH; "t"%char] ++ BACKSLASH :: py "u0001"
    ++ [ascii_of_N 133] ++ [QUOTE].
Proof. vm_compute. reflexivity. Qed.
